(** * smoker_ctrl: the formatting utilities of [utils.c]

    A shallow embedding of [source/application/src/utils.c]
    ([utils_reverse], [utils_itoa], [utils_float_to_char]) and the
    properties its specification states about them.

    Conventions of the embedding
    - a C integer of width w is a [Z]; every operation whose C result is
      converted to a narrower or unsigned type is followed by the wrap of
      that type ([u8], [u16], [u32], [s16], [s32]);
    - a caller buffer is the [list Z] of its valid bytes; an access outside
      of it is undefined in C and is [None] here;
    - a [float] is an IEEE-754 binary32 value, [spec_float] of the standard
      library at precision 24 and maximal exponent 128, and every float
      operation is rounded to binary32 (round to nearest, ties to even);
    - a conversion from float to [int16_t] whose truncated value does not
      fit is undefined in C and is [None] here. *)

From Stdlib Require Import ZArith Zwf Lia List.
From Stdlib Require Import Strings.String Strings.Ascii.
From Stdlib Require Import Numbers.DecimalString Numbers.DecimalFacts Numbers.DecimalPos.
From Stdlib Require Import Numbers.DecimalN Numbers.DecimalZ.
From Stdlib Require Import Floats.SpecFloat.
From stdpp Require Import base option list.
From Equations Require Import Equations.

#[local] Open Scope Z_scope.

(** ** Machine integers *)

Definition u8 (z : Z) : Z := z mod 2^8.
Definition u16 (z : Z) : Z := z mod 2^16.
Definition u32 (z : Z) : Z := z mod 2^32.
Definition s16 (z : Z) : Z := (z + 2^15) mod 2^16 - 2^15.
Definition s32 (z : Z) : Z := (z + 2^31) mod 2^32 - 2^31.

Definition in_u32 (z : Z) : bool := (0 <=? z) && (z <? 2^32).

(** Character constants of the source. *)
Definition ch_0 : Z := 48.     (* '0' *)
Definition ch_minus : Z := 45. (* '-' *)
Definition ch_dot : Z := 46.   (* '.' *)
Definition ch_nul : Z := 0.    (* '\0' *)

(** ** Loops

    Every loop of the source is a recursive function whose measure is an
    integer that decreases and stays non-negative.  The proof that this
    order is well founded is given in a form that lets the functions
    compute on closed inputs. *)

Definition Zwf_0_wf : well_founded (Zwf 0) :=
  Acc_intro_generator 64 (Zwf_well_founded 0).
#[global] Opaque Zwf_0_wf.
#[local] Instance Zwf_0_WellFounded : WellFounded (Zwf 0) := Zwf_0_wf.

(** ** Buffers *)

(** [s[i]] read. *)
Definition load (s : list Z) (i : Z) : option Z :=
  if decide (0 <= i < Z.of_nat (length s)) then s !! Z.to_nat i else None.

(** [s[i] = v]. *)
Definition store (s : list Z) (i v : Z) : option (list Z) :=
  if decide (0 <= i < Z.of_nat (length s))
  then Some (<[Z.to_nat i := v]> s)
  else None.

(** ** [utils_reverse] (utils.c, lines 83-98) *)

(** The measure of the swap loop: [j - i] once both indices are values of
    [uint32_t], which they are from the first iteration on. *)
Definition reverse_gap (i j : Z) : Z :=
  if in_u32 i && in_u32 j then j - i else 2^32.

(** [for ( ; i < j; i++ ) { c = s[i]; s[i] = s[j]; s[j] = c; j--; }] *)
Equations? reverse_loop (s : list Z) (i j : Z) : option (list Z)
  by wf (reverse_gap i j) (Zwf 0) :=
  reverse_loop s i j with decide (i < j) => {
    | left _ :=
        c ← load s i;
        sj ← load s j;
        s1 ← store s i sj;
        s2 ← store s1 j c;
        reverse_loop s2 (u32 (i + 1)) (u32 (j - 1));
    | right _ := Some s }.
Proof.
  unfold Zwf, reverse_gap, in_u32, u32.
  pose proof (Z.mod_pos_bound (i + 1) (2^32) eq_refl).
  pose proof (Z.mod_pos_bound (j - 1) (2^32) eq_refl).
  assert (0 <= i < 2^32 -> i < j -> j < 2^32 -> (i + 1) mod 2^32 = i + 1)
    by (intros; apply Z.mod_small; lia).
  assert (0 <= i -> i < j -> j < 2^32 -> (j - 1) mod 2^32 = j - 1)
    by (intros; apply Z.mod_small; lia).
  destruct (0 <=? i) eqn:?, (i <? 2^32) eqn:?,
           (0 <=? j) eqn:?, (j <? 2^32) eqn:?;
  destruct (0 <=? (i + 1) mod 2^32) eqn:?, ((i + 1) mod 2^32 <? 2^32) eqn:?,
           (0 <=? (j - 1) mod 2^32) eqn:?, ((j - 1) mod 2^32 <? 2^32) eqn:?;
  cbn [andb]; lia.
Qed.

(** [j = ( s_len - 1 ); for ( i = 0; ... )]: the subtraction is done in
    [uint32_t]. *)
Definition utils_reverse (s : list Z) (s_len : Z) : option (list Z) :=
  reverse_loop s 0 (u32 (s_len - 1)).

(** ** [utils_itoa] (utils.c, lines 100-139) *)

(** The [do ... while (( nr > 0 ) && ( i < s_max ))] loop, entered at its
    body.  The result is the buffer with the final [i] and [nr]. *)
Equations? itoa_loop (s : list Z) (i nr s_max : Z) : option (list Z * Z * Z)
  by wf nr (Zwf 0) :=
  itoa_loop s i nr s_max with store s i (u8 (u8 (nr mod 10) + ch_0)) => {
    | None := None;
    | Some s1 with decide (nr / 10 > 0 ∧ u32 (i + 1) < s_max) => {
        | left _ := itoa_loop s1 (u32 (i + 1)) (nr / 10) s_max;
        | right _ := Some (s1, u32 (i + 1), nr / 10) } }.
Proof.
  assert (0 < nr) by (destruct (decide (0 < nr)); [done|];
    assert (nr / 10 <= 0) by (apply Z.div_le_upper_bound; lia); lia).
  assert (nr / 10 < nr) by (apply Z.div_lt; lia). unfold Zwf; lia.
Qed.

(** Modelled from the spec: [bool_t], [TRUE] and [FALSE] are declared in
    [utils.h], which is not among the sources.  The spec has [is_minus]
    hold the sign ("Determine sign"): [bool_t] is [bool], with [TRUE] and
    [FALSE] its two values. *)
Definition bool_t : Type := bool.
Definition TRUE : bool_t := true.
Definition FALSE : bool_t := false.

(** The result is the buffer and the count returned.  [-n] is computed in
    [int32_t], with wrap-around, before the conversion to [uint32_t]. *)
Definition utils_itoa (n : Z) (s : list Z) (s_max : Z) : option (list Z * Z) :=
  let '(is_minus, nr) :=
    if decide (n < 0)
    then (TRUE, u32 (s32 (- n)))
    else (FALSE, u32 n) in
  '(s, i, nr) ← itoa_loop s 0 nr s_max;
  if decide (0 = nr) then
    '(s, i) ← (if decide (FALSE ≠ is_minus)
               then s ← store s i ch_minus; Some (s, u32 (i + 1))
               else Some (s, i));
    s ← store s i ch_nul;
    s ← utils_reverse s i;
    Some (s, i)
  else Some (s, i).

(** ** [utils_float_to_char] (utils.c, lines 14-81) *)

(** binary32 arithmetic. *)
Definition f32_mul : spec_float -> spec_float -> spec_float := SFmul 24 128.
Definition f32_div : spec_float -> spec_float -> spec_float := SFdiv 24 128.
Definition f32_lt : spec_float -> spec_float -> bool := SFltb.
(** Conversion of an integer constant to [float]. *)
Definition f32_of_int (z : Z) : spec_float := binary_normalize 24 128 z 0 false.

(** The integer part of a float, towards zero; infinities and NaN have
    none. *)
Definition f32_trunc (x : spec_float) : option Z :=
  match x with
  | S754_zero _ => Some 0
  | S754_finite sg m e =>
      let a := if decide (0 <= e) then Z.pos m * 2^e else Z.pos m / 2^(- e) in
      Some (if sg then - a else a)
  | _ => None
  end.

(** [(int16_t) x] for a float [x]. *)
Definition f32_to_s16 (x : spec_float) : option Z :=
  t ← f32_trunc x;
  if decide (-32768 <= t <= 32767) then Some t else None.

(** [*--s = v] on the scratch buffer. *)
Definition push (tmp : list Z) (s v : Z) : option (list Z * Z) :=
  tmp ← store tmp (s - 1) v;
  Some (tmp, s - 1).

(** [for ( i = 0; i < 20; i++ ) out[i] = 0;] with [i] a [uint8_t]. *)
Equations? clear_loop (out : list Z) (i : Z) : option (list Z)
  by wf (20 - i) (Zwf 0) :=
  clear_loop out i with decide (i < 20) => {
    | left _ := out ← store out i 0; clear_loop out (u8 (i + 1));
    | right _ := Some out }.
Proof.
  unfold Zwf, u8. pose proof (Z.mod_pos_bound (i + 1) (2^8) eq_refl).
  destruct (decide (0 <= i)); [rewrite Z.mod_small|]; lia.
Qed.

(** The sign test and the two conversions (lines 31-49): [decimals] and
    [units]. *)
Definition float_parts (val : spec_float) : option (Z * Z) :=
  if f32_lt val (f32_of_int 0) then
    a ← f32_to_s16 (f32_mul val (f32_of_int (-100)));
    b ← f32_to_s16 (f32_mul (f32_of_int (-1)) val);
    Some (u16 (Z.rem a 100), b)
  else
    a ← f32_to_s16 (f32_mul val (f32_of_int 100));
    b ← f32_to_s16 val;
    Some (u16 (Z.rem a 100), b).

(** [while ( units > 0 ) { *--s = ( units % 10 ) + '0'; units /= 10; }] *)
Equations? units_loop (tmp : list Z) (s units : Z) : option (list Z * Z)
  by wf units (Zwf 0) :=
  units_loop tmp s units with decide (units > 0) => {
    | left _ :=
        '(tmp, s) ← push tmp s (u8 (Z.rem units 10 + ch_0));
        units_loop tmp s (s16 (Z.quot units 10));
    | right _ := Some (tmp, s) }.
Proof.
  unfold Zwf, s16.
  assert (0 <= units ÷ 10 < units)
    by (split; [apply Z.quot_pos|apply Z.quot_lt]; lia).
  pose proof (Z.mod_pos_bound (units ÷ 10 + 2^15) (2^16) eq_refl).
  destruct (decide (units ÷ 10 < 2^15)); [rewrite Z.mod_small|]; lia.
Qed.

(** [for ( i = 0; i < 20; i++ ) if ( 0 != tmp[i] ) { out[j] = tmp[i]; j++; }]
    with [i] and [j] of type [uint8_t].  The result carries the final [j]. *)
Equations? copy_loop (tmp out : list Z) (i j : Z) : option (list Z * Z)
  by wf (20 - i) (Zwf 0) :=
  copy_loop tmp out i j with decide (i < 20) => {
    | left _ :=
        t ← load tmp i;
        if decide (0 ≠ t)
        then out ← store out j t; copy_loop tmp out (u8 (i + 1)) (u8 (j + 1))
        else copy_loop tmp out (u8 (i + 1)) j;
    | right _ := Some (out, j) }.
Proof.
  all: unfold Zwf, u8; pose proof (Z.mod_pos_bound (i + 1) (2^8) eq_refl);
    destruct (decide (0 <= i)); [rewrite Z.mod_small|]; lia.
Qed.

(** Lines 16-17 and 31-65: the scratch buffer [tmp], filled from its end,
    and the final [s] as an offset into it. *)
Definition fill_scratch (val : spec_float) : option (list Z * Z) :=
  let tmp := replicate 20 0 in
  let s := 20 in
  '(decimals, units) ← float_parts val;
  '(tmp, s) ← push tmp s (u8 (Z.rem decimals 10 + ch_0));
  let decimals := u16 (Z.quot decimals 10) in
  '(tmp, s) ← push tmp s (u8 (Z.rem decimals 10 + ch_0));
  '(tmp, s) ← push tmp s ch_dot;
  '(tmp, s) ← units_loop tmp s units;
  if f32_lt val (f32_of_int 0)
  then push tmp s ch_minus
  else Some (tmp, s).

(** The result is the returned pointer [s], as an offset into the local
    [tmp], and the caller's [out]. *)
Definition utils_float_to_char (val : spec_float) (out : list Z)
  : option (Z * list Z) :=
  out ← clear_loop out 0;
  '(tmp, s) ← fill_scratch val;
  '(out, _) ← copy_loop tmp out 0 0;
  Some (s, out).

(** ** Text *)

(** The bytes of a string. *)
Definition bytes_of_string (t : string) : list Z :=
  (λ a, Z.of_N (N_of_ascii a)) <$> list_ascii_of_string t.

(** The decimal numeral of an integer, as printed by the standard
    library. *)
Definition decimal_string (n : Z) : string :=
  NilZero.string_of_int (Z.to_int n).

(** The [k] low-order decimal digits of [nr] as characters, lowest first. *)
Fixpoint digits_lsb (k : nat) (nr : Z) : list Z :=
  match k with
  | O => []
  | S k => (nr mod 10 + ch_0) :: digits_lsb k (nr / 10)
  end.

(** The non-null bytes of a buffer, in order. *)
Definition text_of (b : list Z) : list Z := filter (λ c, c ≠ 0) b.

(** ** Float constants

    The binary32 value nearest to a decimal fraction [num / den]; the
    division of two exactly represented integers is correctly rounded. *)
Definition f32_lit (num den : Z) : spec_float :=
  f32_div (f32_of_int num) (f32_of_int den).

(** ** Decimal numerals

    The numeral of the standard library ([Decimal.uint], lowest digit
    first) made of the [k] low-order digits of [nr]. *)
Definition digit_cons (r : Z) (d : Decimal.uint) : Decimal.uint :=
  match r with
  | 0 => Decimal.D0 d | 1 => Decimal.D1 d | 2 => Decimal.D2 d
  | 3 => Decimal.D3 d | 4 => Decimal.D4 d | 5 => Decimal.D5 d
  | 6 => Decimal.D6 d | 7 => Decimal.D7 d | 8 => Decimal.D8 d
  | _ => Decimal.D9 d
  end.

Fixpoint lu_digits (k : nat) (nr : Z) : Decimal.uint :=
  match k with
  | O => Decimal.Nil
  | S k => digit_cons (nr mod 10) (lu_digits k (nr / 10))
  end.

(** ** The text of the float formatter

    What the digit emission of lines 51-65 leaves at the end of the scratch
    buffer for a sign, [decimals = d] and [units = u]: the sign, the digits
    of [u] when [u > 0], the separator and two digits of [d]. *)
Definition units_text (u : Z) : list Z :=
  if decide (u > 0) then bytes_of_string (decimal_string u) else [].

Definition scratch_text (neg : bool) (d u : Z) : list Z :=
  (if neg then [ch_minus] else [])
  ++ units_text u
  ++ [ch_dot; (d / 10) mod 10 + ch_0; d mod 10 + ch_0].

(** ** Reading a numeral back

    The text in a buffer as a string, and the integer it denotes for the
    decimal reader of the standard library. *)
Definition string_of_bytes (b : list Z) : string :=
  string_of_list_ascii ((λ z, ascii_of_N (Z.to_N z)) <$> b).

Definition decode_decimal (b : list Z) : option Z :=
  Z.of_int <$> NilZero.int_of_string (string_of_bytes b).

(** ** Truncation as the specification words it

    [integer_part x a]: the integer [a] is the integer part of the float
    [x], towards zero, stated on the significand and the exponent of [x]:
    [|a| <= |x| < |a| + 1] with the sign of [x]. *)
Definition integer_part (x : spec_float) (a : Z) : Prop :=
  match x with
  | S754_zero _ => a = 0
  | S754_finite sg m e =>
      (if sg then a <= 0 else 0 <= a)
      ∧ Z.abs a * 2 ^ Z.max 0 (- e) <= Z.pos m * 2 ^ Z.max 0 e
        < (Z.abs a + 1) * 2 ^ Z.max 0 (- e)
  | _ => False
  end.

#[global] Instance integer_part_dec x a : Decision (integer_part x a).
Proof. destruct x as [?|?| |[|] ? ?]; simpl; apply _. Defined.


(** * Properties *)

(** ** Machine integers and buffers *)

Lemma u32_small z : 0 <= z < 2^32 → u32 z = z.
Proof. intros; unfold u32; apply Z.mod_small; lia. Qed.

Lemma u8_small z : 0 <= z < 2^8 → u8 z = z.
Proof. intros; unfold u8; apply Z.mod_small; lia. Qed.

Lemma load_in (s : list Z) i :
  0 <= i < Z.of_nat (length s) → load s i = s !! Z.to_nat i.
Proof. intros; unfold load; rewrite decide_True; done. Qed.

Lemma load_out (s : list Z) i :
  Z.of_nat (length s) <= i → load s i = None.
Proof. intros; unfold load; rewrite decide_False; [done|lia]. Qed.

Lemma store_in (s : list Z) i v :
  0 <= i < Z.of_nat (length s) → store s i v = Some (<[Z.to_nat i := v]> s).
Proof. intros; unfold store; rewrite decide_True; done. Qed.

Lemma load_nat (s : list Z) (k : nat) x :
  s !! k = Some x → load s (Z.of_nat k) = Some x.
Proof.
  intros H. rewrite load_in, Nat2Z.id; [done|].
  apply lookup_lt_Some in H; lia.
Qed.

Lemma store_nat (s : list Z) (k : nat) v :
  (k < length s)%nat → store s (Z.of_nat k) v = Some (<[k := v]> s).
Proof. intros. rewrite store_in, Nat2Z.id; [done|lia]. Qed.

Lemma bind_Some {A B} (f : A → option B) (x : A) : Some x ≫= f = f x.
Proof. reflexivity. Qed.

Lemma bind_None {A B} (f : A → option B) : None ≫= f = None.
Proof. reflexivity. Qed.

(** ** The reverser *)

Lemma reverse_loop_eq s i j :
  reverse_loop s i j =
  if decide (i < j) then
    c ← load s i;
    sj ← load s j;
    s1 ← store s i sj;
    s2 ← store s1 j c;
    reverse_loop s2 (u32 (i + 1)) (u32 (j - 1))
  else Some s.
Proof.
  rewrite reverse_loop_equation_1. destruct (decide (i < j)); reflexivity.
Qed.

Lemma insert_middle (l1 l2 : list Z) x y n :
  n = length l1 → <[n := y]> (l1 ++ x :: l2) = l1 ++ y :: l2.
Proof. intros ->. by rewrite insert_app_r_alt, Nat.sub_diag. Qed.

(** The loop invariant in closed form: with [i] at the start and [j] at the
    end of the part [mid] still to be swapped, the loop reverses [mid] and
    leaves the bytes around it alone. *)
Lemma reverse_loop_mid (n : nat) :
  ∀ (pre mid post : list Z),
    (length mid <= n)%nat →
    Z.of_nat (length pre + length mid) <= 2^32 →
    reverse_loop (pre ++ mid ++ post)
      (Z.of_nat (length pre)) (Z.of_nat (length pre) + Z.of_nat (length mid) - 1)
    = Some (pre ++ reverse mid ++ post).
Proof.
  induction n as [n IH] using lt_wf_ind. intros pre mid post Hn Hlen.
  rewrite reverse_loop_eq.
  destruct mid as [|a mid]; [rewrite decide_False by (simpl; lia); done|].
  destruct (decide (mid = [])) as [->|Hne].
  { rewrite decide_False by (simpl; lia). done. }
  destruct (exists_last Hne) as (m & b & ->).
  assert (Hm : length (a :: m ++ [b]) = S (S (length m)))
    by (simpl; rewrite length_app; simpl; lia).
  rewrite Hm in Hn, Hlen |- *.
  rewrite decide_True by lia.
  set (buf := pre ++ (a :: m ++ [b]) ++ post).
  assert (E1 : buf = pre ++ a :: (m ++ b :: post))
    by (subst buf; simpl; by rewrite <- !(assoc_L (++))).
  assert (E2 : buf = (pre ++ a :: m) ++ b :: post)
    by (subst buf; simpl; by rewrite <- !(assoc_L (++))).
  assert (Hj : Z.of_nat (length pre) + Z.of_nat (S (S (length m))) - 1
               = Z.of_nat (length (pre ++ a :: m)))
    by (rewrite length_app; simpl; lia).
  rewrite Hj.
  rewrite (load_nat buf (length pre) a)
    by (rewrite E1; by apply list_lookup_middle).
  rewrite (load_nat buf (length (pre ++ a :: m)) b)
    by (rewrite E2; by apply list_lookup_middle).
  rewrite !bind_Some.
  rewrite store_nat by (rewrite E1, length_app; simpl; lia).
  rewrite E1, (insert_middle pre _ a b) by done.
  rewrite !bind_Some.
  assert (E3 : pre ++ b :: (m ++ b :: post) = (pre ++ b :: m) ++ b :: post)
    by (by rewrite <- !(assoc_L (++))).
  rewrite E3.
  rewrite store_nat by (rewrite !length_app; simpl; lia).
  rewrite (insert_middle (pre ++ b :: m) post b a)
    by (rewrite !length_app; simpl; lia).
  rewrite !bind_Some.
  replace ((pre ++ b :: m) ++ a :: post) with ((pre ++ [b]) ++ m ++ (a :: post))
    by (by rewrite <- !(assoc_L (++))).
  rewrite !u32_small by (rewrite ?length_app; simpl; lia).
  replace (Z.of_nat (length pre) + 1) with (Z.of_nat (length (pre ++ [b])))
    by (rewrite length_app; simpl; lia).
  replace (Z.of_nat (length (pre ++ a :: m)) - 1)
    with (Z.of_nat (length (pre ++ [b])) + Z.of_nat (length m) - 1)
    by (rewrite !length_app; simpl; lia).
  rewrite (IH (length m)); try lia.
  - f_equal. rewrite reverse_cons, reverse_app. simpl.
    by rewrite <- !(assoc_L (++)).
  - rewrite length_app. simpl. lia.
Qed.

(** [utils_reverse] on a buffer that holds at least [s_len >= 1] bytes. *)
Lemma utils_reverse_spec (s : list Z) (s_len : Z) :
  1 <= s_len <= Z.of_nat (length s) → s_len < 2^32 →
  utils_reverse s s_len
  = Some (reverse (take (Z.to_nat s_len) s) ++ drop (Z.to_nat s_len) s).
Proof.
  intros Hlen Hu. unfold utils_reverse. rewrite u32_small by lia.
  pose proof (reverse_loop_mid (Z.to_nat s_len) []
                (take (Z.to_nat s_len) s) (drop (Z.to_nat s_len) s)) as H.
  assert (Hl : length (take (Z.to_nat s_len) s) = Z.to_nat s_len)
    by (rewrite length_take; lia).
  rewrite Hl in H. simpl in H. rewrite take_drop in H.
  rewrite Z2Nat.id in H by lia. apply H; lia.
Qed.

(** C5: for every buffer [x] and every length [len >= 1] with [x] holding
    at least [len] bytes, reversing twice gives back the original buffer:
    [utils_reverse] is its own inverse on non-empty buffers. *)
Theorem utils_reverse_involutive (x : list Z) (len : Z) :
  1 <= len <= Z.of_nat (length x) → len < 2^32 →
  utils_reverse x len ≫= (λ y, utils_reverse y len) = Some x.
Proof.
  intros Hlen Hu. rewrite utils_reverse_spec by done. rewrite !bind_Some.
  assert (Hl : length (take (Z.to_nat len) x) = Z.to_nat len)
    by (rewrite length_take; lia).
  rewrite utils_reverse_spec by (rewrite ?length_app, ?length_reverse, ?Hl; lia).
  rewrite take_app_length', drop_app_length' by (by rewrite length_reverse, Hl).
  by rewrite reverse_involutive, take_drop.
Qed.

Lemma utils_reverse_involutive_witness :
  (1 <= 3 <= Z.of_nat (length [104; 101; 108; 108; 111])) ∧ 3 < 2^32 ∧
  utils_reverse [104; 101; 108; 108; 111] 3 ≫= (λ y, utils_reverse y 3)
  = Some [104; 101; 108; 108; 111].
Proof.
  split; [simpl; lia|]. split; [lia|].
  apply (utils_reverse_involutive [104; 101; 108; 108; 111] 3); simpl; lia.
Defined.

(** C8: for [len >= 1] the call touches indices [0 .. len-1] only: it
    succeeds on a buffer of exactly [len] bytes, where any other index is
    out of bounds, and on a longer buffer the bytes from [len] on are
    neither changed nor used.  For [len = 0] the index [len - 1] wraps to
    [2^32 - 1], the loop is entered and its first iteration reads
    [s[2^32 - 1]], out of bounds: the call is undefined. *)
Theorem utils_reverse_footprint :
  (∀ (s : list Z) (len : Z),
     1 <= len <= Z.of_nat (length s) → len < 2^32 →
     utils_reverse (take (Z.to_nat len) s) len
       = Some (reverse (take (Z.to_nat len) s)) ∧
     utils_reverse s len
       = Some (reverse (take (Z.to_nat len) s) ++ drop (Z.to_nat len) s))
  ∧ u32 (0 - 1) = 2^32 - 1
  ∧ (∀ s : list Z,
       Z.of_nat (length s) < 2^32 →
       load s (u32 (0 - 1)) = None ∧ utils_reverse s 0 = None).
Proof.
  split; [|split; [reflexivity|]].
  - intros s len Hlen Hu. split; [|by apply utils_reverse_spec].
    assert (Hl : length (take (Z.to_nat len) s) = Z.to_nat len)
      by (rewrite length_take; lia).
    rewrite utils_reverse_spec by (rewrite ?Hl; lia).
    rewrite <- Hl at 1 3. by rewrite firstn_all, drop_all, (right_id_L [] (++)).
  - intros s Hs.
    assert (Hw : u32 (0 - 1) = 2^32 - 1) by reflexivity.
    assert (Hj : load s (u32 (0 - 1)) = None) by (apply load_out; lia).
    split; [done|].
    unfold utils_reverse. rewrite reverse_loop_eq, Hj, Hw.
    rewrite decide_True by lia.
    by destruct (load s 0).
Qed.

Lemma utils_reverse_footprint_witness :
  utils_reverse [49; 50; 51] 3 = Some [51; 50; 49] ∧
  utils_reverse [49; 50; 51; 7; 9] 3 = Some [51; 50; 49; 7; 9] ∧
  utils_reverse [49; 50; 51] 0 = None.
Proof.
  destruct utils_reverse_footprint as (Hin & _ & Hzero).
  split; [|split].
  - apply (Hin [49; 50; 51] 3); simpl; lia.
  - apply (Hin [49; 50; 51; 7; 9] 3); simpl; lia.
  - apply (Hzero [49; 50; 51]); simpl; lia.
Defined.

(** ** The integer formatter *)

Lemma itoa_loop_eq s i nr s_max :
  itoa_loop s i nr s_max =
  s1 ← store s i (u8 (u8 (nr mod 10) + ch_0));
  if decide (nr / 10 > 0 ∧ u32 (i + 1) < s_max)
  then itoa_loop s1 (u32 (i + 1)) (nr / 10) s_max
  else Some (s1, u32 (i + 1), nr / 10).
Proof.
  rewrite itoa_loop_equation_1.
  destruct (store s i _) as [s1|]; [|reflexivity]. cbn.
  destruct (decide _); reflexivity.
Qed.

Lemma digit_char nr : u8 (u8 (nr mod 10) + ch_0) = nr mod 10 + ch_0.
Proof.
  pose proof (Z.mod_pos_bound nr 10 eq_refl). unfold ch_0.
  rewrite (u8_small (nr mod 10)) by lia. apply u8_small; lia.
Qed.

Lemma div_pow10_succ nr (k : nat) :
  nr / 10 ^ Z.of_nat (S k) = nr / 10 / 10 ^ Z.of_nat k.
Proof.
  rewrite Nat2Z.inj_succ, Z.pow_succ_r by lia.
  rewrite Z.div_div by lia. reflexivity.
Qed.

Lemma div_pow10_pos nr (k : nat) : 0 <= nr → 0 <= nr / 10 ^ Z.of_nat k.
Proof. intros. apply Z.div_pos; lia. Qed.

(** The loop in closed form.  [mid] is the part of the buffer the loop
    writes: it goes on while the value is not used up and the index is
    below [s_max], and stops at the end of [mid]. *)
Lemma itoa_loop_run (mid : list Z) :
  ∀ (pre post : list Z) (nr s_max : Z),
    mid ≠ [] → 0 <= nr →
    Z.of_nat (length pre + length mid) < 2^32 →
    (length mid = 1%nat ∨
     (nr / 10 ^ (Z.of_nat (length mid) - 1) > 0 ∧
      Z.of_nat (length pre + length mid) - 1 < s_max)) →
    ¬ (nr / 10 ^ Z.of_nat (length mid) > 0 ∧
       Z.of_nat (length pre + length mid) < s_max) →
    itoa_loop (pre ++ mid ++ post) (Z.of_nat (length pre)) nr s_max
    = Some (pre ++ digits_lsb (length mid) nr ++ post,
            Z.of_nat (length pre + length mid),
            nr / 10 ^ Z.of_nat (length mid)).
Proof.
  induction mid as [|x mid IH]; intros pre post nr s_max Hne Hnr Hr Hcont Hstop;
    [done|].
  rewrite itoa_loop_eq, digit_char.
  rewrite store_nat by (rewrite !length_app; simpl; lia).
  change ((x :: mid) ++ post) with (x :: mid ++ post).
  rewrite (insert_middle pre _ x) by done. rewrite !bind_Some.
  cbn [length] in *.
  rewrite u32_small by lia.
  replace (Z.of_nat (length pre) + 1) with (Z.of_nat (length (pre ++ [nr mod 10 + ch_0])))
    by (rewrite length_app; simpl; lia).
  assert (E : pre ++ (nr mod 10 + ch_0) :: mid ++ post
              = (pre ++ [nr mod 10 + ch_0]) ++ mid ++ post)
    by (by rewrite <- (assoc_L (++))).
  destruct mid as [|y mid].
  - rewrite decide_False.
    + cbn [length digits_lsb app]. rewrite length_app, Z.pow_1_r. cbn [length].
      do 2 f_equal; rewrite ?div_pow10_succ; try done; try (f_equal; lia); lia.
    + intros [H1 H2]. apply Hstop. simpl in *. rewrite length_app in H2.
      simpl in H2. split; [|lia]. by rewrite Z.pow_1_r.
  - destruct Hcont as [Hcont|[Hc1 Hc2]]; [simpl in Hcont; lia|].
    assert (Hk : Z.of_nat (S (length (y :: mid))) - 1 = Z.of_nat (S (length mid)))
      by (simpl; lia).
    rewrite Hk, div_pow10_succ in Hc1.
    pose proof (div_pow10_pos nr 1 Hnr) as Hd. rewrite Z.pow_1_r in Hd.
    rewrite decide_True.
    2:{ split.
        - destruct (decide (nr / 10 = 0)) as [Hz|]; [|lia].
          rewrite Hz, Z.div_0_l in Hc1 by lia. lia.
        - rewrite length_app. simpl in *. lia. }
    rewrite E, IH; try done.
    + rewrite length_app. cbn [length digits_lsb]. rewrite div_pow10_succ.
      rewrite <- !(assoc_L (++)). cbn [app].
      do 2 f_equal; rewrite ?div_pow10_succ; try done; try (f_equal; lia); lia.
    + rewrite length_app. simpl in *. lia.
    + right. split.
      * simpl length.
        by replace (Z.of_nat (S (length mid)) - 1) with (Z.of_nat (length mid))
          by lia.
      * rewrite length_app. simpl in *. lia.
    + intros [H1 H2]. apply Hstop. rewrite div_pow10_succ. split; [done|].
      rewrite length_app in H2. simpl in *. lia.
Qed.

(** ** Decimal numerals *)

Lemma digit_cases r :
  0 <= r < 10 →
  r = 0 ∨ r = 1 ∨ r = 2 ∨ r = 3 ∨ r = 4 ∨ r = 5 ∨ r = 6 ∨ r = 7 ∨ r = 8 ∨ r = 9.
Proof. lia. Qed.

Ltac digit_split r :=
  let H := fresh in
  assert (H : 0 <= r < 10) by (apply Z.mod_pos_bound; lia);
  apply digit_cases in H;
  destruct H as [H|[H|[H|[H|[H|[H|[H|[H|[H|H]]]]]]]]]; rewrite H.

Lemma length_bytes_of_string t :
  length (bytes_of_string t) = String.length t.
Proof.
  unfold bytes_of_string. rewrite length_fmap.
  induction t; simpl; congruence.
Qed.

Lemma length_digits_lsb (k : nat) : ∀ nr, length (digits_lsb k nr) = k.
Proof. induction k; intros; simpl; [done|]. by rewrite IHk. Qed.

Lemma bytes_lu_digits (k : nat) :
  ∀ nr, bytes_of_string (NilEmpty.string_of_uint (lu_digits k nr))
        = digits_lsb k nr.
Proof.
  induction k as [|k IH]; intros nr; [reflexivity|].
  cbn [lu_digits digits_lsb]. specialize (IH (nr / 10)).
  digit_split (nr mod 10); cbn; f_equal; exact IH.
Qed.

Lemma of_lu_digits (k : nat) :
  ∀ nr, 0 <= nr < 10 ^ Z.of_nat k →
        Unsigned.of_lu (lu_digits k nr) = Z.to_N nr.
Proof.
  induction k as [|k IH]; intros nr Hnr.
  - simpl in *. assert (nr = 0) by lia. by subst.
  - cbn [lu_digits].
    assert (Hq : 0 <= nr / 10 < 10 ^ Z.of_nat k).
    { rewrite Nat2Z.inj_succ, Z.pow_succ_r in Hnr by lia.
      split; [apply Z.div_pos; lia|apply Z.div_lt_upper_bound; lia]. }
    specialize (IH _ Hq).
    pose proof (Z.div_mod nr 10 ltac:(lia)) as Hdm.
    assert (Hr : 0 <= nr mod 10 < 10) by (apply Z.mod_pos_bound; lia).
    assert (Z.to_N nr = Z.to_N (nr mod 10) + 10 * Z.to_N (nr / 10))%N as -> by lia.
    rewrite <- IH.
    apply digit_cases in Hr.
    destruct Hr as [H|[H|[H|[H|[H|[H|[H|[H|[H|H]]]]]]]]]; rewrite H;
      rewrite Unsigned.of_lu_eqn; reflexivity.
Qed.

Lemma nztail_lu_digits (k : nat) :
  ∀ nr, 10 ^ Z.of_nat k <= nr < 10 ^ Z.of_nat (S k) →
        DecimalFacts.nztail (lu_digits (S k) nr) = lu_digits (S k) nr.
Proof.
  induction k as [|k IH]; intros nr Hnr.
  - change (10 ^ Z.of_nat 0) with 1 in Hnr. change (10 ^ Z.of_nat 1) with 10 in Hnr.
    cbn [lu_digits]. rewrite Z.mod_small by lia.
    assert (Hc : 0 <= nr < 10) by lia. apply digit_cases in Hc.
    destruct Hc as [H|[H|[H|[H|[H|[H|[H|[H|[H|H]]]]]]]]]; subst nr; try reflexivity; lia.
  - assert (Hq : 10 ^ Z.of_nat k <= nr / 10 < 10 ^ Z.of_nat (S k)).
    { rewrite !Nat2Z.inj_succ, !Z.pow_succ_r in Hnr by lia.
      rewrite Nat2Z.inj_succ, Z.pow_succ_r by lia.
      split; [apply Z.div_le_lower_bound; lia|apply Z.div_lt_upper_bound; lia]. }
    specialize (IH _ Hq).
    change (lu_digits (S (S k)) nr)
      with (digit_cons (nr mod 10) (lu_digits (S k) (nr / 10))).
    assert (Hnn : lu_digits (S k) (nr / 10) ≠ Decimal.Nil).
    { cbn [lu_digits]. digit_split ((nr / 10) mod 10); discriminate. }
    revert IH Hnn. generalize (lu_digits (S k) (nr / 10)). intros d IH Hnn.
    digit_split (nr mod 10); cbn [digit_cons DecimalFacts.nztail]; rewrite IH;
      destruct d; try done.
Qed.

Lemma bytes_of_string_cons c t :
  bytes_of_string (String c t) = Z.of_N (N_of_ascii c) :: bytes_of_string t.
Proof. reflexivity. Qed.

Lemma bytes_revapp d :
  ∀ d', bytes_of_string (NilEmpty.string_of_uint (Decimal.revapp d d'))
        = reverse (bytes_of_string (NilEmpty.string_of_uint d))
          ++ bytes_of_string (NilEmpty.string_of_uint d').
Proof.
  induction d; intros d'; [reflexivity|..];
    cbn [Decimal.revapp NilEmpty.string_of_uint]; rewrite IHd;
    cbn [NilEmpty.string_of_uint]; rewrite !bytes_of_string_cons;
    rewrite reverse_cons, <- (assoc_L (++)); reflexivity.
Qed.

Lemma bytes_rev d :
  bytes_of_string (NilEmpty.string_of_uint (Decimal.rev d))
  = reverse (bytes_of_string (NilEmpty.string_of_uint d)).
Proof.
  unfold Decimal.rev. rewrite bytes_revapp. cbn. by rewrite (right_id_L [] (++)).
Qed.

(** The numeral printed for a positive number with [S k] digits is made
    of its digits, highest first. *)
Lemma to_uint_digits (k : nat) (p : positive) :
  10 ^ Z.of_nat k <= Z.pos p < 10 ^ Z.of_nat (S k) →
  Pos.to_uint p = Decimal.rev (lu_digits (S k) (Z.pos p)).
Proof.
  intros Hp. unfold Pos.to_uint. f_equal.
  change (Pos.to_little_uint p) with (Unsigned.to_lu (N.pos p)).
  assert (Hpos : 0 <= Z.pos p < 10 ^ Z.of_nat (S k)) by lia.
  rewrite <- (of_lu_digits (S k) (Z.pos p) Hpos) at 1.
  rewrite Unsigned.to_of_lu. unfold lnorm.
  rewrite nztail_lu_digits by done.
  cbn [lu_digits]. digit_split (Z.pos p mod 10); reflexivity.
Qed.

Lemma pow10_digits_exist nr :
  0 < nr → ∃ k : nat, 10 ^ Z.of_nat k <= nr < 10 ^ Z.of_nat (S k).
Proof.
  intros Hnr.
  assert (H : ∀ m : nat, ∀ x, 0 < x < 10 ^ Z.of_nat m →
              ∃ k : nat, 10 ^ Z.of_nat k <= x < 10 ^ Z.of_nat (S k)).
  { induction m as [|m IH]; intros x Hx; [simpl in Hx; lia|].
    destruct (decide (x < 10 ^ Z.of_nat m)) as [Hlt|Hge]; [apply IH; lia|].
    exists m. lia. }
  apply (H (Z.to_nat nr)). split; [done|].
  rewrite Z2Nat.id by lia. apply Z.pow_gt_lin_r; lia.
Qed.

(** What [decimal_string] is for a non-negative number: its [k] digits,
    highest first, where [k] is the length of the numeral. *)
Lemma decimal_string_digits nr :
  0 <= nr →
  let k := String.length (decimal_string nr) in
  (1 <= k)%nat ∧
  bytes_of_string (decimal_string nr) = reverse (digits_lsb k nr) ∧
  nr < 10 ^ Z.of_nat k ∧
  (k = 1%nat ∨ 10 ^ (Z.of_nat k - 1) <= nr).
Proof.
  intros Hnr. destruct nr as [|p|p]; [|clear Hnr|lia].
  { cbn. split; [lia|]. split; [reflexivity|]. split; [lia|by left]. }
  destruct (pow10_digits_exist (Z.pos p)) as [k Hk]; [lia|].
  assert (Hb : bytes_of_string (decimal_string (Z.pos p))
               = reverse (digits_lsb (S k) (Z.pos p))).
  { unfold decimal_string, Z.to_int, NilZero.string_of_int, NilZero.string_of_uint.
    rewrite (to_uint_digits k p Hk).
    rewrite <- bytes_lu_digits, <- bytes_rev.
    destruct (Decimal.rev (lu_digits (S k) (Z.pos p))) eqn:E; try reflexivity.
    apply rev_nil_inv in E. revert E. cbn [lu_digits].
    digit_split (Z.pos p mod 10); discriminate. }
  assert (Hl : String.length (decimal_string (Z.pos p)) = S k).
  { rewrite <- length_bytes_of_string, Hb, length_reverse.
    apply length_digits_lsb. }
  intros k'. subst k'. rewrite Hl. split; [lia|]. split; [done|].
  split; [lia|]. right. replace (Z.of_nat (S k) - 1) with (Z.of_nat k) by lia. lia.
Qed.

(** ** [utils_itoa] *)

Lemma abs_wrap n : - 2^31 <= n < 0 → u32 (s32 (- n)) = - n.
Proof.
  intros Hn. unfold u32, s32.
  destruct (decide (n = - 2^31)) as [->|Hne]; [reflexivity|].
  rewrite (Z.mod_small (- n + 2^31)) by lia.
  replace (- n + 2^31 - 2^31) with (- n) by lia.
  apply Z.mod_small; lia.
Qed.

Lemma magnitude_wrap n :
  - 2^31 <= n < 2^31 →
  (if decide (n < 0) then (TRUE, u32 (s32 (- n))) else (FALSE, u32 n))
  = (if decide (n < 0) then TRUE else FALSE, Z.abs n).
Proof.
  intros Hn. case_decide.
  - rewrite abs_wrap by lia. f_equal. lia.
  - rewrite u32_small by lia. f_equal. lia.
Qed.

Lemma store_middle (pre post : list Z) x v i :
  i = Z.of_nat (length pre) →
  store (pre ++ x :: post) i v = Some (pre ++ v :: post).
Proof.
  intros ->. rewrite store_nat by (rewrite length_app; simpl; lia).
  by rewrite (insert_middle pre post x v).
Qed.

Lemma drop_cons_ex (s : list Z) (k : nat) :
  (k < length s)%nat → ∃ x, drop k s = x :: drop (S k) s.
Proof.
  intros Hk. destruct (lookup_lt_is_Some_2 s k Hk) as [x Hx].
  exists x. by apply drop_S.
Qed.

Lemma take_digits_lsb (k : nat) :
  ∀ (m : nat) nr, (k <= m)%nat → take k (digits_lsb m nr) = digits_lsb k nr.
Proof.
  induction k as [|k IH]; intros m nr Hm; [by rewrite take_0|].
  destruct m as [|m]; [lia|]. simpl. f_equal. apply IH. lia.
Qed.

Lemma digits_lsb_chars (k : nat) :
  ∀ nr, Forall (λ c, 48 <= c <= 57) (digits_lsb k nr).
Proof.
  induction k as [|k IH]; intros nr; simpl; constructor; [|apply IH].
  pose proof (Z.mod_pos_bound nr 10 eq_refl). unfold ch_0. lia.
Qed.

(** A 32-bit value has at most ten digits. *)
Lemma pow10_u32 (k : nat) nr : 10 ^ Z.of_nat k <= nr → nr < 2^32 → (k <= 9)%nat.
Proof.
  intros Hk Hnr. destruct (decide (k <= 9)%nat); [done|].
  assert (10 ^ 10 <= 10 ^ Z.of_nat k) by (apply Z.pow_le_mono_r; lia). lia.
Qed.

(** The loop on its success path: the value has no more digits than
    [s_max] allows (a single digit is always emitted). *)
Lemma itoa_loop_digits nr (s : list Z) s_max :
  0 <= nr < 2^32 →
  let k := String.length (decimal_string nr) in
  (Z.of_nat k <= s_max ∨ k = 1%nat) →
  (k <= length s)%nat →
  itoa_loop s 0 nr s_max = Some (digits_lsb k nr ++ drop k s, Z.of_nat k, 0).
Proof.
  intros Hnr k Hmax Hlen.
  destruct (decimal_string_digits nr) as (Hk1 & _ & Hlt & Hge); [lia|].
  fold k in Hk1, Hlt, Hge.
  assert (Hk10 : (k <= 10)%nat).
  { destruct Hge as [->|Hge]; [lia|].
    replace (Z.of_nat k - 1) with (Z.of_nat (k - 1)) in Hge by lia.
    pose proof (pow10_u32 (k - 1) nr Hge ltac:(lia)). lia. }
  assert (Hl : length (take k s) = k) by (rewrite length_take; lia).
  pose proof (itoa_loop_run (take k s) [] (drop k s) nr s_max) as H.
  rewrite Hl in H. cbn [length app Nat.add] in H.
  change (Z.of_nat 0) with 0 in H.
  rewrite take_drop in H.
  rewrite H; clear H.
  - rewrite Z.div_small by lia. done.
  - intros E. rewrite E in Hl. simpl in Hl. lia.
  - lia.
  - lia.
  - destruct Hge as [->|Hge]; [by left|].
    destruct Hmax as [Hmax| ->]; [|by left]. right. split; [|lia].
    assert (1 <= nr / 10 ^ (Z.of_nat k - 1)); [|lia].
    apply Z.div_le_lower_bound; lia.
  - rewrite Z.div_small by lia. lia.
Qed.

(** The loop on its truncation path: the value has more digits than the
    loop may emit, which is [s_max], and one when [s_max] is [0]. *)
Lemma itoa_loop_truncated nr (s : list Z) s_max :
  0 <= nr < 2^32 →
  let k := Z.to_nat (Z.max 1 s_max) in
  10 ^ Z.of_nat k <= nr →
  (k <= length s)%nat →
  itoa_loop s 0 nr s_max
    = Some (digits_lsb k nr ++ drop k s, Z.of_nat k, nr / 10 ^ Z.of_nat k)
  ∧ 0 < nr / 10 ^ Z.of_nat k.
Proof.
  intros Hnr k Hge Hlen.
  assert (Hk9 : (k <= 9)%nat) by (apply (pow10_u32 k nr); lia).
  assert (Hpos : 0 < nr / 10 ^ Z.of_nat k).
  { assert (1 <= nr / 10 ^ Z.of_nat k); [|lia].
    apply Z.div_le_lower_bound; lia. }
  split; [|done].
  assert (Hl : length (take k s) = k) by (rewrite length_take; lia).
  pose proof (itoa_loop_run (take k s) [] (drop k s) nr s_max) as H.
  rewrite Hl in H. cbn [length app Nat.add] in H.
  change (Z.of_nat 0) with 0 in H.
  rewrite take_drop in H.
  apply H; clear H.
  - intros E. rewrite E in Hl. simpl in Hl. lia.
  - lia.
  - lia.
  - destruct (decide (k = 1%nat)) as [|Hk]; [by left|]. right. split; [|lia].
    assert (1 <= nr / 10 ^ (Z.of_nat k - 1)); [|lia].
    apply Z.div_le_lower_bound; [lia|].
    assert (10 ^ (Z.of_nat k - 1) <= 10 ^ Z.of_nat k)
      by (apply Z.pow_le_mono_r; lia).
    lia.
  - lia.
Qed.

Lemma decimal_string_neg p :
  decimal_string (Z.neg p) = String "-" (decimal_string (Z.pos p)).
Proof. reflexivity. Qed.

(** Lines 126-136 after a loop that used the value up: sign, terminator
    and reversal. *)
Lemma itoa_finish_minus (D : list Z) (s : list Z) (k : nat) :
  length D = k → (S k < length s)%nat → Z.of_nat k < 2^32 - 1 →
  (s1 ← store (D ++ drop k s) (Z.of_nat k) ch_minus;
   s2 ← store s1 (u32 (Z.of_nat k + 1)) ch_nul;
   s3 ← utils_reverse s2 (u32 (Z.of_nat k + 1));
   Some (s3, u32 (Z.of_nat k + 1)))
  = Some (ch_minus :: reverse D ++ ch_nul :: drop (S (S k)) s, Z.of_nat (S k)).
Proof.
  intros HlD Hlen Hk.
  destruct (drop_cons_ex s k) as [x Hx]; [lia|].
  destruct (drop_cons_ex s (S k)) as [y Hy]; [lia|].
  rewrite Hx, Hy.
  rewrite (store_middle D) by lia. rewrite ?bind_Some.
  rewrite u32_small by lia.
  replace (D ++ ch_minus :: y :: drop (S (S k)) s)
    with ((D ++ [ch_minus]) ++ y :: drop (S (S k)) s)
    by (by rewrite <- (assoc_L (++))).
  rewrite (store_middle (D ++ [ch_minus]))
    by (rewrite length_app, HlD; simpl; lia).
  rewrite ?bind_Some.
  rewrite utils_reverse_spec
    by (rewrite ?length_app, ?HlD; simpl; lia).
  rewrite take_app_length', drop_app_length'
    by (rewrite length_app, HlD; simpl; lia).
  rewrite ?bind_Some. rewrite reverse_snoc.
  f_equal. f_equal. lia.
Qed.

Lemma itoa_finish_plus (D : list Z) (s : list Z) (k : nat) :
  length D = k → (1 <= k < length s)%nat → Z.of_nat k < 2^32 →
  (s2 ← store (D ++ drop k s) (Z.of_nat k) ch_nul;
   s3 ← utils_reverse s2 (Z.of_nat k);
   Some (s3, Z.of_nat k))
  = Some (reverse D ++ ch_nul :: drop (S k) s, Z.of_nat k).
Proof.
  intros HlD Hlen Hk.
  destruct (drop_cons_ex s k) as [x Hx]; [lia|].
  rewrite Hx.
  rewrite (store_middle D) by lia. rewrite ?bind_Some.
  rewrite utils_reverse_spec by (rewrite ?length_app, ?HlD; simpl; lia).
  rewrite take_app_length', drop_app_length' by lia.
  reflexivity.
Qed.

(** [utils_itoa] on its success path. *)
Lemma utils_itoa_success n (s : list Z) s_max :
  - 2^31 <= n < 2^31 →
  (Z.of_nat (String.length (decimal_string (Z.abs n))) <= s_max
   ∨ String.length (decimal_string (Z.abs n)) = 1%nat) →
  (String.length (decimal_string n) < length s)%nat →
  utils_itoa n s s_max
  = Some (bytes_of_string (decimal_string n)
            ++ ch_nul :: drop (S (String.length (decimal_string n))) s,
          Z.of_nat (String.length (decimal_string n))).
Proof.
  intros Hn Hmax Hlen. unfold utils_itoa.
  rewrite magnitude_wrap by done.
  set (k := String.length (decimal_string (Z.abs n))) in *.
  assert (HL : String.length (decimal_string n)
               = if decide (n < 0) then S k else k).
  { subst k. destruct n; try done. }
  destruct (decimal_string_digits (Z.abs n)) as (Hk1 & Hb & Hlt & Hge); [lia|].
  fold k in Hk1, Hb, Hlt, Hge.
  assert (Hk10 : (k <= 10)%nat).
  { destruct Hge as [->|Hge]; [lia|].
    replace (Z.of_nat k - 1) with (Z.of_nat (k - 1)) in Hge by lia.
    pose proof (pow10_u32 (k - 1) (Z.abs n) Hge ltac:(lia)). lia. }
  rewrite itoa_loop_digits by (fold k; try done; case_decide; lia).
  fold k. rewrite bind_Some. cbv beta iota. rewrite (decide_True (P := 0 = 0)) by done.
  pose proof (length_digits_lsb k (Z.abs n)) as HlD.
  rewrite HL.
  destruct (decide (n < 0)) as [Hneg|Hneg].
  - rewrite (decide_True (P := FALSE ≠ TRUE)) by done.
    pose proof (itoa_finish_minus _ s k HlD ltac:(lia) ltac:(lia)) as H.
    destruct (store _ (Z.of_nat k) ch_minus) as [s1|]; [|done].
    rewrite bind_Some in H. rewrite bind_Some. rewrite bind_Some.
    cbv beta iota. rewrite H.
    destruct n as [|p|p]; try lia.
    change (Z.abs (Z.neg p)) with (Z.pos p) in Hb |- *.
    by rewrite decimal_string_neg, bytes_of_string_cons, Hb.
  - rewrite (decide_False (P := FALSE ≠ FALSE)) by (intros H; by apply H).
    pose proof (itoa_finish_plus _ s k HlD ltac:(lia) ltac:(lia)) as H.
    rewrite bind_Some. cbv beta iota. rewrite H.
    replace (decimal_string n) with (decimal_string (Z.abs n))
      by (f_equal; lia).
    by rewrite Hb.
Qed.

(** [utils_itoa] on its truncation path: nothing is done after the loop. *)
Lemma utils_itoa_truncated n (s : list Z) s_max :
  - 2^31 <= n < 2^31 →
  let k := Z.to_nat (Z.max 1 s_max) in
  10 ^ Z.of_nat k <= Z.abs n →
  (k <= length s)%nat →
  utils_itoa n s s_max = Some (digits_lsb k (Z.abs n) ++ drop k s, Z.of_nat k).
Proof.
  intros Hn k Hge Hlen. unfold utils_itoa.
  rewrite magnitude_wrap by done.
  destruct (itoa_loop_truncated (Z.abs n) s s_max) as [Hloop Hnr];
    [lia|done|done|].
  fold k in Hloop, Hnr. rewrite Hloop, bind_Some. cbv beta iota.
  rewrite (decide_False (P := 0 = _)) by lia. done.
Qed.

(** The low-order digits of a number are the end of its numeral. *)
Lemma digits_lsb_decimal_string (k : nat) nr :
  0 <= nr → (k <= String.length (decimal_string nr))%nat →
  digits_lsb k nr = take k (reverse (bytes_of_string (decimal_string nr))).
Proof.
  intros Hnr Hk.
  destruct (decimal_string_digits nr Hnr) as (_ & Hb & _).
  by rewrite Hb, reverse_involutive, take_digits_lsb.
Qed.

Lemma decimal_string_long (k : nat) nr :
  10 ^ Z.of_nat k <= nr → (k < String.length (decimal_string nr))%nat.
Proof.
  intros Hge.
  destruct (decimal_string_digits nr) as (_ & _ & Hlt & _); [lia|].
  destruct (decide (k < String.length (decimal_string nr))%nat); [done|].
  assert (10 ^ Z.of_nat (String.length (decimal_string nr)) <= 10 ^ Z.of_nat k)
    by (apply Z.pow_le_mono_r; lia).
  lia.
Qed.

(** C1: for every 32-bit [n], every [s_max] that is at least the number
    of decimal digits of [n] and every buffer with room for the text and
    its terminator, [utils_itoa] leaves the standard decimal numeral of [n]
    in the buffer, followed by a null byte, and returns the length of the
    numeral; the numeral starts with ['-'] exactly when [n < 0];
    [utils_itoa(-128, s, 10)] leaves ["-128"] and returns 4, and
    [utils_itoa(0, s, s_max)] leaves ["0"] and returns 1. *)
Theorem utils_itoa_decimal :
  (∀ (n : Z) (s : list Z) (s_max : Z),
     - 2^31 <= n < 2^31 →
     Z.of_nat (String.length (decimal_string (Z.abs n))) <= s_max →
     (String.length (decimal_string n) < length s)%nat →
     utils_itoa n s s_max
     = Some (bytes_of_string (decimal_string n)
               ++ ch_nul :: drop (S (String.length (decimal_string n))) s,
             Z.of_nat (String.length (decimal_string n))))
  ∧ (∀ n : Z,
       bytes_of_string (decimal_string n) !! 0%nat = Some ch_minus ↔ n < 0)
  ∧ (∀ s : list Z,
       (5 <= length s)%nat →
       utils_itoa (-128) s 10
       = Some (bytes_of_string "-128" ++ ch_nul :: drop 5 s, 4))
  ∧ (∀ (s : list Z) (s_max : Z),
       (2 <= length s)%nat →
       utils_itoa 0 s s_max
       = Some (bytes_of_string "0" ++ ch_nul :: drop 2 s, 1)).
Proof.
  split; [|split; [|split]].
  - intros n s s_max Hn Hmax Hlen. apply utils_itoa_success; auto.
  - intros n. split.
    + intros H. destruct (decide (n < 0)) as [|Hge]; [done|exfalso].
      destruct (decimal_string_digits n) as (_ & Hb & _); [lia|].
      rewrite Hb in H.
      pose proof (digits_lsb_chars (String.length (decimal_string n)) n) as HF.
      apply Forall_reverse in HF. rewrite Forall_lookup in HF.
      specialize (HF _ _ H). unfold ch_minus in HF. lia.
    + intros H. destruct n as [|p|p]; try lia. reflexivity.
  - intros s Hs. apply (utils_itoa_success (-128) s 10); [lia| |exact Hs].
    left. vm_compute. discriminate.
  - intros s s_max Hs. apply (utils_itoa_success 0 s s_max); [lia| |exact Hs].
    by right.
Qed.

Lemma utils_itoa_decimal_witness :
  utils_itoa 2021 [7; 7; 7; 7; 7; 7] 4 = Some ([50; 48; 50; 49; 0; 7], 4) ∧
  utils_itoa (-128) [7; 7; 7; 7; 7; 7] 10 = Some ([45; 49; 50; 56; 0; 7], 4) ∧
  utils_itoa 0 [7; 7; 7] 0 = Some ([48; 0; 7], 1).
Proof.
  destruct utils_itoa_decimal as (Hall & _ & Hneg & Hzero).
  split; [|split].
  - apply (Hall 2021 [7; 7; 7; 7; 7; 7] 4); [lia|vm_compute; discriminate|simpl; lia].
  - apply (Hneg [7; 7; 7; 7; 7; 7]). simpl; lia.
  - apply (Hzero [7; 7; 7] 0). simpl; lia.
Defined.

(** C3, as the code has it: when the value has more digits than the loop
    may emit, the loop stops on its bound with a non-zero rest, the buffer
    holds the low-order digits of the numeral, lowest first, on top of
    otherwise unchanged bytes (no sign, no terminator, no reversal), and
    the count returned is [s_max], or 1 when [s_max] is 0 since the loop
    body runs once before the bound is tested;
    [utils_itoa(12345, s, 3)] returns 3. *)
Theorem utils_itoa_truncation :
  (∀ (n : Z) (s : list Z) (s_max : Z),
     - 2^31 <= n < 2^31 →
     let k := Z.to_nat (Z.max 1 s_max) in
     10 ^ Z.of_nat k <= Z.abs n →
     (k <= length s)%nat →
     let low := take k (reverse (bytes_of_string (decimal_string (Z.abs n)))) in
     itoa_loop s 0 (Z.abs n) s_max
       = Some (low ++ drop k s, Z.max 1 s_max, Z.abs n / 10 ^ Z.of_nat k)
     ∧ Z.abs n / 10 ^ Z.of_nat k ≠ 0
     ∧ utils_itoa n s s_max = Some (low ++ drop k s, Z.max 1 s_max)
     ∧ Forall (λ c, 48 <= c <= 57) low)
  ∧ (∀ s : list Z,
       (3 <= length s)%nat →
       utils_itoa 12345 s 3 = Some ([53; 52; 51] ++ drop 3 s, 3)).
Proof.
  assert (Hgen : ∀ (n : Z) (s : list Z) (s_max : Z),
     - 2^31 <= n < 2^31 →
     let k := Z.to_nat (Z.max 1 s_max) in
     10 ^ Z.of_nat k <= Z.abs n →
     (k <= length s)%nat →
     let low := take k (reverse (bytes_of_string (decimal_string (Z.abs n)))) in
     itoa_loop s 0 (Z.abs n) s_max
       = Some (low ++ drop k s, Z.max 1 s_max, Z.abs n / 10 ^ Z.of_nat k)
     ∧ Z.abs n / 10 ^ Z.of_nat k ≠ 0
     ∧ utils_itoa n s s_max = Some (low ++ drop k s, Z.max 1 s_max)
     ∧ Forall (λ c, 48 <= c <= 57) low).
  { intros n s s_max Hn k Hge Hlen low.
    assert (Hlow : low = digits_lsb k (Z.abs n)).
    { subst low. symmetry. apply digits_lsb_decimal_string; [lia|].
      pose proof (decimal_string_long k (Z.abs n) Hge). lia. }
    assert (Hk : Z.max 1 s_max = Z.of_nat k) by (subst k; lia).
    destruct (itoa_loop_truncated (Z.abs n) s s_max) as [Hloop Hnr];
      [lia|done|done|].
    fold k in Hloop, Hnr. rewrite Hlow, Hk.
    split; [done|]. split; [lia|]. split; [by apply utils_itoa_truncated|].
    apply digits_lsb_chars. }
  split; [exact Hgen|].
  intros s Hs.
  destruct (Hgen 12345 s 3) as (_ & _ & H & _); [lia|vm_compute; discriminate|exact Hs|].
  exact H.
Qed.

Lemma utils_itoa_truncation_witness :
  utils_itoa (-98765) [7; 7; 7; 7; 7; 7] 2 = Some ([53; 54; 7; 7; 7; 7], 2) ∧
  utils_itoa 12345 [7; 7; 7; 7; 7; 7] 3 = Some ([53; 52; 51; 7; 7; 7], 3).
Proof.
  destruct utils_itoa_truncation as (Hall & Hex).
  split.
  - destruct (Hall (-98765) [7; 7; 7; 7; 7; 7] 2) as (_ & _ & H & _);
      [lia|vm_compute; discriminate|simpl; lia|exact H].
  - apply (Hex [7; 7; 7; 7; 7; 7]). simpl; lia.
Defined.

(** C3 as stated fails for [s_max = 0]: the loop stops on its bound with
    the rest 1234 still to convert, and the count returned is 1, not
    [s_max]. *)
Lemma utils_itoa_truncation_zero_capacity :
  itoa_loop [7; 7; 7; 7; 7; 7] 0 12345 0 = Some ([53; 7; 7; 7; 7; 7], 1, 1234)
  ∧ utils_itoa 12345 [7; 7; 7; 7; 7; 7] 0 = Some ([53; 7; 7; 7; 7; 7], 1)
  ∧ utils_itoa 12345 [7; 7; 7; 7; 7; 7] 0 ≠ Some ([53; 7; 7; 7; 7; 7], 0).
Proof. split; [|split]; vm_compute; try reflexivity. discriminate. Qed.

Lemma u32_negative n : - 2^32 <= n < 0 → u32 n = n + 2^32.
Proof.
  intros Hn. unfold u32. symmetry.
  apply (Z.mod_unique n (2^32) (-1)); lia.
Qed.

(** C7: the magnitude of a negative [n] computed by the code, [-n] in
    [int32_t] with wrap-around and then converted to [uint32_t], is the
    negation in [uint32_t] of the converted [n], and is [|n|]; for the
    most negative integer it is [2^31], and [utils_itoa(-2147483648, s,
    s_max)] with [s_max >= 10] leaves ["-2147483648"] and returns 11. *)
Theorem utils_itoa_int_min :
  (∀ n : Z,
     - 2^31 <= n < 0 →
     u32 (s32 (- n)) = u32 (- u32 n) ∧ u32 (s32 (- n)) = Z.abs n)
  ∧ s32 (- (-2147483648)) = -2147483648
  ∧ u32 (s32 (- (-2147483648))) = 2147483648
  ∧ (∀ (s : list Z) (s_max : Z),
       10 <= s_max →
       (12 <= length s)%nat →
       utils_itoa (-2147483648) s s_max
       = Some (bytes_of_string "-2147483648" ++ ch_nul :: drop 12 s, 11)).
Proof.
  split; [|split; [reflexivity|split; [reflexivity|]]].
  - intros n Hn. rewrite abs_wrap by done. split; [|lia].
    rewrite (u32_negative n) by lia. symmetry.
    unfold u32. symmetry. apply (Z.mod_unique _ (2^32) (-1)); lia.
  - intros s s_max Hmax Hs.
    apply (utils_itoa_success (-2147483648) s s_max); [lia| |exact Hs].
    left. change (String.length (decimal_string (Z.abs (-2147483648)))) with 10%nat.
    lia.
Qed.

Lemma utils_itoa_int_min_witness :
  u32 (s32 (- (-5))) = u32 (- u32 (-5)) ∧
  utils_itoa (-2147483648) [7; 7; 7; 7; 7; 7; 7; 7; 7; 7; 7; 7; 7] 10
  = Some ([45; 50; 49; 52; 55; 52; 56; 51; 54; 52; 56; 0; 7], 11).
Proof.
  destruct utils_itoa_int_min as (Hneg & _ & _ & Hmin).
  split.
  - apply (Hneg (-5)). lia.
  - apply (Hmin [7; 7; 7; 7; 7; 7; 7; 7; 7; 7; 7; 7; 7] 10); [lia|simpl; lia].
Defined.

(** C10: a non-negative [n] converted with [s_max] equal to its number of
    digits takes the success path (the loop uses the value up, the buffer
    is terminated and reversed) and the count returned is [s_max]; a
    truncated conversion with the same [s_max] returns the same count, so
    the count alone does not tell them apart: 123 and 1234 with
    [s_max = 3] both return 3. *)
Theorem utils_itoa_count_ambiguous :
  (∀ (n : Z) (s : list Z),
     0 <= n < 2^31 →
     let k := String.length (decimal_string n) in
     (k < length s)%nat →
     itoa_loop s 0 n (Z.of_nat k)
       = Some (digits_lsb k n ++ drop k s, Z.of_nat k, 0)
     ∧ utils_itoa n s (Z.of_nat k)
       = Some (bytes_of_string (decimal_string n) ++ ch_nul :: drop (S k) s,
               Z.of_nat k))
  ∧ (∀ s : list Z,
       (4 <= length s)%nat →
       utils_itoa 123 s 3 = Some (bytes_of_string "123" ++ ch_nul :: drop 4 s, 3)
       ∧ itoa_loop s 0 1234 3 = Some ([52; 51; 50] ++ drop 3 s, 3, 1)
       ∧ utils_itoa 1234 s 3 = Some ([52; 51; 50] ++ drop 3 s, 3)).
Proof.
  split.
  - intros n s Hn k Hlen. split.
    + apply itoa_loop_digits; [lia|left; lia|fold k; lia].
    + apply (utils_itoa_success n s (Z.of_nat k)); [lia| |exact Hlen].
      left. replace (Z.abs n) with n by lia. fold k. lia.
  - intros s Hs. split; [|split].
    + apply (utils_itoa_success 123 s 3); [lia|left; vm_compute; discriminate|exact Hs].
    + destruct (itoa_loop_truncated 1234 s 3) as [H _];
        [lia|vm_compute; discriminate|simpl; lia|exact H].
    + apply (utils_itoa_truncated 1234 s 3);
        [lia|vm_compute; discriminate|simpl; lia].
Qed.

Lemma utils_itoa_count_ambiguous_witness :
  utils_itoa 4096 [7; 7; 7; 7; 7; 7] 4 = Some ([52; 48; 57; 54; 0; 7], 4) ∧
  utils_itoa 123 [7; 7; 7; 7; 7; 7] 3 = Some ([49; 50; 51; 0; 7; 7], 3) ∧
  utils_itoa 1234 [7; 7; 7; 7; 7; 7] 3 = Some ([52; 51; 50; 7; 7; 7], 3).
Proof.
  destruct utils_itoa_count_ambiguous as (Hall & Hex).
  split; [|split].
  - apply (Hall 4096 [7; 7; 7; 7; 7; 7]); [lia|simpl; lia].
  - apply (Hex [7; 7; 7; 7; 7; 7]). simpl; lia.
  - apply (Hex [7; 7; 7; 7; 7; 7]). simpl; lia.
Defined.

(** ** The float formatter *)

Lemma clear_loop_eq out i :
  clear_loop out i =
  if decide (i < 20)
  then out ← store out i 0; clear_loop out (u8 (i + 1))
  else Some out.
Proof.
  rewrite clear_loop_equation_1. destruct (decide (i < 20)); reflexivity.
Qed.

Lemma copy_loop_eq tmp out i j :
  copy_loop tmp out i j =
  if decide (i < 20) then
    t ← load tmp i;
    if decide (0 ≠ t)
    then out ← store out j t; copy_loop tmp out (u8 (i + 1)) (u8 (j + 1))
    else copy_loop tmp out (u8 (i + 1)) j
  else Some (out, j).
Proof.
  rewrite copy_loop_equation_1. destruct (decide (i < 20)); reflexivity.
Qed.

Lemma units_loop_eq tmp s units :
  units_loop tmp s units =
  if decide (units > 0) then
    '(tmp, s) ← push tmp s (u8 (Z.rem units 10 + ch_0));
    units_loop tmp s (s16 (Z.quot units 10))
  else Some (tmp, s).
Proof.
  rewrite units_loop_equation_1. destruct (decide (units > 0)); reflexivity.
Qed.

(** The clearing loop: [mid] is the part of the first 20 bytes not yet
    cleared. *)
Lemma clear_loop_run (mid : list Z) :
  ∀ (pre post : list Z),
    (length pre + length mid = 20)%nat →
    clear_loop (pre ++ mid ++ post) (Z.of_nat (length pre))
    = Some (pre ++ replicate (length mid) 0 ++ post).
Proof.
  induction mid as [|x mid IH]; intros pre post Hlen; rewrite clear_loop_eq.
  - simpl in Hlen. rewrite decide_False by lia. done.
  - simpl in Hlen. rewrite decide_True by lia.
    change ((x :: mid) ++ post) with (x :: mid ++ post).
    rewrite (store_middle pre) by done. rewrite bind_Some.
    rewrite u8_small by lia.
    replace (Z.of_nat (length pre) + 1) with (Z.of_nat (length (pre ++ [0])))
      by (rewrite length_app; simpl; lia).
    replace (pre ++ 0 :: mid ++ post) with ((pre ++ [0]) ++ mid ++ post)
      by (by rewrite <- (assoc_L (++))).
    rewrite IH by (rewrite length_app; simpl; lia).
    by rewrite <- (assoc_L (++)).
Qed.

Lemma clear_loop_spec (out : list Z) :
  (20 <= length out)%nat →
  clear_loop out 0 = Some (replicate 20 0 ++ drop 20 out).
Proof.
  intros Hlen.
  pose proof (clear_loop_run (take 20 out) [] (drop 20 out)) as H.
  rewrite length_take, Nat.min_l in H by lia.
  change (Z.of_nat (length [])) with 0 in H.
  rewrite !app_nil_l, take_drop in H. by apply H.
Qed.

(** The copying loop: [rest] is the part of the scratch buffer not yet
    read; its non-null bytes go to [out] from index [j] on. *)
Lemma copy_loop_run (rest : list Z) :
  ∀ (tpre out : list Z) (j : nat),
    (length tpre + length rest = 20)%nat →
    (j <= length tpre)%nat → (20 <= length out)%nat →
    copy_loop (tpre ++ rest) out (Z.of_nat (length tpre)) (Z.of_nat j)
    = Some (take j out ++ text_of rest
              ++ drop (j + length (text_of rest)) out,
            Z.of_nat (j + length (text_of rest))).
Proof.
  induction rest as [|t rest IH]; intros tpre out j Hlen Hj Hout;
    rewrite copy_loop_eq.
  - simpl in Hlen. rewrite decide_False by lia.
    cbn [text_of filter list_filter length app]. rewrite Nat.add_0_r, take_drop.
    done.
  - simpl in Hlen. rewrite decide_True by lia.
    rewrite (load_nat _ (length tpre) t) by (by apply list_lookup_middle).
    rewrite bind_Some, u8_small by lia.
    replace (Z.of_nat (length tpre) + 1) with (Z.of_nat (length (tpre ++ [t])))
      by (rewrite length_app; simpl; lia).
    replace (tpre ++ t :: rest) with ((tpre ++ [t]) ++ rest)
      by (by rewrite <- (assoc_L (++))).
    unfold text_of. rewrite filter_cons. fold (text_of rest).
    destruct (decide (0 ≠ t)) as [Ht|Ht].
    + rewrite decide_True by congruence.
      rewrite store_nat by lia. rewrite bind_Some, u8_small by lia.
      replace (Z.of_nat j + 1) with (Z.of_nat (S j)) by lia.
      rewrite IH; [|rewrite length_app; simpl; lia..|rewrite length_insert; lia].
      cbn [length]. f_equal. f_equal; [|f_equal; lia].
      rewrite (take_S_r _ j t) by (apply list_lookup_insert_eq; lia).
      rewrite take_insert_ge by lia.
      rewrite drop_insert_lt by lia.
      rewrite <- (assoc_L (++)). cbn [app].
      by replace (S j + length (text_of rest))%nat
        with (j + S (length (text_of rest)))%nat by lia.
    + rewrite decide_False by (intros ?; apply Ht; congruence).
      rewrite IH; [done|rewrite length_app; simpl; lia..|done].
Qed.

Lemma copy_loop_spec (tmp out : list Z) :
  length tmp = 20%nat → (20 <= length out)%nat →
  copy_loop tmp out 0 0
  = Some (text_of tmp ++ drop (length (text_of tmp)) out,
          Z.of_nat (length (text_of tmp))).
Proof.
  intros Ht Ho. apply (copy_loop_run tmp [] out 0); simpl; lia.
Qed.

Lemma s16_small z : - 2^15 <= z < 2^15 → s16 z = z.
Proof. intros. unfold s16. rewrite Z.mod_small by lia. lia. Qed.

Lemma u16_small z : 0 <= z < 2^16 → u16 z = z.
Proof. intros; unfold u16; apply Z.mod_small; lia. Qed.

(** [*--s = v] when the scratch buffer holds [text] from [s] on. *)
Lemma push_scratch (n : nat) (text : list Z) v :
  push (replicate (S n) 0 ++ text) (Z.of_nat (S n)) v
  = Some (replicate n 0 ++ v :: text, Z.of_nat n).
Proof.
  unfold push. rewrite replicate_S_end, <- (assoc_L (++)). cbn [app].
  rewrite (store_middle (replicate n 0)) by (rewrite length_replicate; lia).
  rewrite bind_Some. do 2 f_equal. lia.
Qed.

(** The units loop for a value of [K] digits. *)
Lemma units_loop_scratch (K : nat) :
  ∀ (n : nat) (text : list Z) (units : Z),
    0 <= units < 2^15 →
    units < 10 ^ Z.of_nat K →
    (K = 0%nat ∨ 10 ^ (Z.of_nat K - 1) <= units) →
    units_loop (replicate (n + K) 0 ++ text) (Z.of_nat (n + K)) units
    = Some (replicate n 0 ++ reverse (digits_lsb K units) ++ text, Z.of_nat n).
Proof.
  induction K as [|K IH]; intros n text units Hu Hlt Hge;
    rewrite units_loop_eq.
  - change (10 ^ Z.of_nat 0) with 1 in Hlt.
    rewrite decide_False by lia. by rewrite Nat.add_0_r.
  - destruct Hge as [|Hge]; [done|].
    replace (Z.of_nat (S K) - 1) with (Z.of_nat K) in Hge by lia.
    assert (0 < 10 ^ Z.of_nat K) by (apply Z.pow_pos_nonneg; lia).
    rewrite decide_True by lia.
    rewrite Nat.add_succ_r, push_scratch, bind_Some. cbv beta iota.
    rewrite (Z.rem_mod_nonneg units 10), (Z.quot_div_nonneg units 10) by lia.
    assert (Hq : 0 <= units / 10 < units)
      by (split; [apply Z.div_pos|apply Z.div_lt]; lia).
    rewrite s16_small by lia.
    pose proof (Z.mod_pos_bound units 10 eq_refl).
    rewrite u8_small by (unfold ch_0; lia).
    rewrite IH.
    + cbn [digits_lsb]. rewrite reverse_cons, <- (assoc_L (++)). done.
    + lia.
    + rewrite Nat2Z.inj_succ, Z.pow_succ_r in Hlt by lia.
      apply Z.div_lt_upper_bound; lia.
    + destruct K as [|K]; [by left|right].
      replace (Z.of_nat (S K) - 1) with (Z.of_nat K) by lia.
      rewrite Nat2Z.inj_succ, Z.pow_succ_r in Hge by lia.
      apply Z.div_le_lower_bound; lia.
Qed.

Lemma length_units_text u : u < 2^15 → (length (units_text u) <= 5)%nat.
Proof.
  intros Hu. unfold units_text. case_decide; [|simpl; lia].
  rewrite length_bytes_of_string.
  destruct (decimal_string_digits u) as (_ & _ & _ & [->|Hge]); [lia|lia|].
  set (K := String.length (decimal_string u)) in *.
  destruct (decide (K <= 5)%nat); [done|].
  assert (10 ^ 5 <= 10 ^ (Z.of_nat K - 1)) by (apply Z.pow_le_mono_r; lia).
  lia.
Qed.

(** The units loop in the scratch buffer: it puts [units_text] in front of
    the text. *)
Lemma units_loop_text (n : nat) (text : list Z) (u : Z) :
  - 2^15 <= u < 2^15 → (5 <= n)%nat →
  units_loop (replicate n 0 ++ text) (Z.of_nat n) u
  = Some (replicate (n - length (units_text u)) 0 ++ units_text u ++ text,
          Z.of_nat (n - length (units_text u))).
Proof.
  intros Hu Hn. pose proof (length_units_text u ltac:(lia)) as HK.
  revert HK. unfold units_text. case_decide as Hpos; intros HK.
  - rewrite length_bytes_of_string in HK |- *.
    destruct (decimal_string_digits u) as (_ & Hb & Hlt & Hge); [lia|].
    set (K := String.length (decimal_string u)) in *.
    replace n with (n - K + K)%nat at 1 2 by lia.
    rewrite units_loop_scratch; [by rewrite Hb|lia|done|].
    destruct Hge as [->|Hge]; right; [simpl; lia|done].
  - rewrite units_loop_eq, decide_False by done.
    cbn [length app]. by rewrite Nat.sub_0_r.
Qed.

Lemma f32_to_s16_range x t : f32_to_s16 x = Some t → -32768 <= t <= 32767.
Proof.
  unfold f32_to_s16. destruct (f32_trunc x) as [t'|]; [|done].
  rewrite bind_Some. case_decide; [|done]. intros [= <-]. done.
Qed.

Lemma float_parts_range val d u :
  float_parts val = Some (d, u) → 0 <= d < 2^16 ∧ -32768 <= u <= 32767.
Proof.
  unfold float_parts.
  destruct (f32_lt val (f32_of_int 0)).
  - destruct (f32_to_s16 (f32_mul val _)) as [a|] eqn:Ha; [|done].
    rewrite bind_Some.
    destruct (f32_to_s16 (f32_mul _ val)) as [b|] eqn:Hb; [|done].
    rewrite bind_Some. intros [= <- <-].
    split; [apply Z.mod_pos_bound; lia|by eapply f32_to_s16_range].
  - destruct (f32_to_s16 (f32_mul val _)) as [a|] eqn:Ha; [|done].
    rewrite bind_Some.
    destruct (f32_to_s16 val) as [b|] eqn:Hb; [|done].
    rewrite bind_Some. intros [= <- <-].
    split; [apply Z.mod_pos_bound; lia|by eapply f32_to_s16_range].
Qed.

Lemma length_scratch_text neg d u :
  u < 2^15 → (4 <= length (scratch_text neg d u) + (if neg then 0 else 1) <= 9)%nat.
Proof.
  intros Hu. pose proof (length_units_text u Hu).
  unfold scratch_text. rewrite !length_app. destruct neg; simpl; lia.
Qed.

(** Lines 16-65 in closed form. *)
Lemma fill_scratch_spec val d u :
  float_parts val = Some (d, u) →
  let text := scratch_text (f32_lt val (f32_of_int 0)) d u in
  fill_scratch val
  = Some (replicate (20 - length text) 0 ++ text, Z.of_nat (20 - length text)).
Proof.
  intros Hp text. destruct (float_parts_range _ _ _ Hp) as [Hd Hu].
  unfold fill_scratch. rewrite Hp, bind_Some. cbv beta iota.
  rewrite (Z.rem_mod_nonneg d 10), (Z.quot_div_nonneg d 10) by lia.
  assert (Hq : 0 <= d / 10 < 2^16).
  { split; [apply Z.div_pos; lia|apply Z.div_lt_upper_bound; lia]. }
  rewrite (u16_small (d / 10)), Z.rem_mod_nonneg by lia.
  pose proof (Z.mod_pos_bound d 10 eq_refl).
  pose proof (Z.mod_pos_bound (d / 10) 10 eq_refl).
  rewrite !u8_small by (unfold ch_0; lia).
  change (replicate 20 0) with (replicate 20 0 ++ []).
  rewrite (push_scratch 19), bind_Some. cbv beta iota.
  rewrite (push_scratch 18), bind_Some. cbv beta iota.
  rewrite (push_scratch 17), bind_Some. cbv beta iota.
  rewrite units_loop_text, bind_Some by lia. cbv beta iota.
  pose proof (length_units_text u ltac:(lia)) as HK.
  subst text. unfold scratch_text.
  set (ut := units_text u) in *.
  set (tail := [ch_dot; (d / 10) mod 10 + ch_0; d mod 10 + ch_0]).
  assert (Ht : length tail = 3%nat) by done.
  destruct (f32_lt val (f32_of_int 0)).
  - replace (17 - length ut)%nat with (S (16 - length ut)) by lia.
    rewrite push_scratch. rewrite !length_app, Ht. cbn [length app].
    replace (20 - (1 + (length ut + 3)))%nat with (16 - length ut)%nat by lia.
    done.
  - rewrite !length_app, Ht. cbn [length app].
    replace (20 - (0 + (length ut + 3)))%nat with (17 - length ut)%nat by lia.
    done.
Qed.

Lemma text_of_app (l1 l2 : list Z) : text_of (l1 ++ l2) = text_of l1 ++ text_of l2.
Proof. apply filter_app. Qed.

Lemma text_of_zeros (n : nat) : text_of (replicate n 0) = [].
Proof.
  induction n as [|n IH]; [done|]. unfold text_of in *. simpl.
  rewrite filter_cons_False by (intros H; by apply H). done.
Qed.

Lemma text_of_nonzero (l : list Z) : Forall (λ c, c ≠ 0) l → text_of l = l.
Proof.
  induction 1 as [|c l Hc _ IH]; [done|]. unfold text_of in *.
  rewrite filter_cons_True by done. by rewrite IH.
Qed.

Lemma scratch_text_nonzero neg d u : Forall (λ c, c ≠ 0) (scratch_text neg d u).
Proof.
  unfold scratch_text. rewrite !Forall_app. split; [|split].
  - destruct neg; repeat constructor. done.
  - unfold units_text. case_decide; [|constructor].
    destruct (decimal_string_digits u) as (_ & -> & _); [lia|].
    apply Forall_reverse.
    eapply Forall_impl; [apply digits_lsb_chars|]. intros c Hc. simpl in Hc. lia.
  - pose proof (Z.mod_pos_bound d 10 eq_refl).
    pose proof (Z.mod_pos_bound (d / 10) 10 eq_refl).
    unfold ch_dot, ch_0. repeat constructor; lia.
Qed.

(** [utils_float_to_char] in closed form, for every value whose two
    conversions to [int16_t] are defined. *)
Lemma utils_float_to_char_spec val (out : list Z) d u :
  float_parts val = Some (d, u) → (20 <= length out)%nat →
  let text := scratch_text (f32_lt val (f32_of_int 0)) d u in
  utils_float_to_char val out
  = Some (Z.of_nat (20 - length text),
          text ++ replicate (20 - length text) 0 ++ drop 20 out).
Proof.
  intros Hp Hout text. destruct (float_parts_range _ _ _ Hp) as [Hd Hu].
  pose proof (length_scratch_text (f32_lt val (f32_of_int 0)) d u ltac:(lia)) as HL.
  fold text in HL.
  unfold utils_float_to_char.
  rewrite clear_loop_spec, bind_Some by done.
  rewrite (fill_scratch_spec val d u Hp), bind_Some. fold text. cbv beta iota.
  assert (HL' : (length text <= 9)%nat) by (destruct (f32_lt _ _); lia).
  rewrite copy_loop_spec;
    [|rewrite length_app, length_replicate; lia
     |rewrite length_app, length_replicate; lia].
  rewrite bind_Some. cbv beta iota.
  rewrite text_of_app, text_of_zeros, app_nil_l.
  rewrite (text_of_nonzero text) by apply scratch_text_nonzero.
  rewrite drop_app_le by (rewrite length_replicate; lia).
  by rewrite drop_replicate.
Qed.

Lemma utils_float_to_char_undefined val (out : list Z) :
  float_parts val = None → utils_float_to_char val out = None.
Proof.
  intros Hp. unfold utils_float_to_char, fill_scratch. rewrite Hp.
  destruct (clear_loop out 0); reflexivity.
Qed.

(** C9: when [utils_float_to_char] returns, which it does whenever the
    two conversions to [int16_t] are defined and [out] has 20 bytes, the
    first 20 bytes of [out] are [j] non-null bytes followed by null bytes
    up to index 19. *)
Theorem utils_float_to_char_zero_padded val (out : list Z) d u :
  float_parts val = Some (d, u) → (20 <= length out)%nat →
  ∃ (s : Z) (out' : list Z) (j : nat),
    utils_float_to_char val out = Some (s, out')
    ∧ (j <= 20)%nat
    ∧ (∀ i : nat, (i < j)%nat → ∃ c, out' !! i = Some c ∧ c ≠ 0)
    ∧ (∀ i : nat, (j <= i < 20)%nat → out' !! i = Some 0).
Proof.
  intros Hp Hout. destruct (float_parts_range _ _ _ Hp) as [Hd Hu].
  pose proof (length_scratch_text (f32_lt val (f32_of_int 0)) d u ltac:(lia)) as HL.
  set (text := scratch_text (f32_lt val (f32_of_int 0)) d u) in *.
  assert (HL' : (length text <= 9)%nat) by (destruct (f32_lt _ _); lia).
  eexists _, _, (length text). split; [by apply utils_float_to_char_spec|].
  fold text. split; [lia|]. split.
  - intros i Hi. destruct (lookup_lt_is_Some_2 text i Hi) as [c Hc].
    exists c. split; [by apply lookup_app_l_Some|].
    pose proof (scratch_text_nonzero (f32_lt val (f32_of_int 0)) d u) as HF.
    rewrite Forall_lookup in HF. by apply (HF i).
  - intros i Hi. rewrite lookup_app_r by lia.
    rewrite lookup_app_l by (rewrite length_replicate; lia).
    apply lookup_replicate_2. lia.
Qed.

Lemma utils_float_to_char_zero_padded_witness :
  ∃ (s : Z) (out' : list Z) (j : nat),
    utils_float_to_char (f32_lit 1999 1000) (replicate 20 7) = Some (s, out')
    ∧ (j <= 20)%nat
    ∧ (∀ i : nat, (i < j)%nat → ∃ c, out' !! i = Some c ∧ c ≠ 0)
    ∧ (∀ i : nat, (j <= i < 20)%nat → out' !! i = Some 0).
Proof.
  apply (utils_float_to_char_zero_padded (f32_lit 1999 1000) (replicate 20 7) 99 1).
  - vm_compute. reflexivity.
  - simpl. lia.
Defined.

(** C4, as the code has it: the final copy drops null bytes, and ['0']
    (48) is not one of them.  The sign, every digit of the units, zeros
    included, and the separator are in the output, and so are both
    decimals, a ['0'] first decimal included, when the second one is not
    zero. *)
Theorem copy_keeps_inner_zero_digits val (out : list Z) d u :
  float_parts val = Some (d, u) → (20 <= length out)%nat →
  let lead :=
    (if f32_lt val (f32_of_int 0) then [ch_minus] else [])
    ++ units_text u ++ [ch_dot] in
  ∃ (s : Z) (out' : list Z),
    utils_float_to_char val out = Some (s, out')
    ∧ take (length lead) out' = lead
    ∧ (d mod 10 ≠ 0 →
       take (length lead + 2) out'
       = lead ++ [(d / 10) mod 10 + ch_0; d mod 10 + ch_0]).
Proof.
  intros Hp Hout lead.
  eexists _, _. split; [by apply utils_float_to_char_spec|].
  assert (Ht : scratch_text (f32_lt val (f32_of_int 0)) d u
               = lead ++ [(d / 10) mod 10 + ch_0; d mod 10 + ch_0]).
  { unfold scratch_text. subst lead. by rewrite <- !(assoc_L (++)). }
  rewrite Ht, <- !(assoc_L (++)). split.
  - by rewrite take_app_length.
  - intros _. rewrite (assoc_L (++) lead).
    apply take_app_length'. rewrite length_app. simpl. lia.
Qed.

Lemma copy_keeps_inner_zero_digits_witness :
  ∃ (s : Z) (out' : list Z),
    utils_float_to_char (f32_lit 1005 100) (replicate 20 7) = Some (s, out')
    ∧ take 3 out' = [49; 48; 46]
    ∧ (5 mod 10 ≠ 0 → take 5 out' = [49; 48; 46; 48; 53]).
Proof.
  apply (copy_keeps_inner_zero_digits (f32_lit 1005 100) (replicate 20 7) 5 10).
  - vm_compute. reflexivity.
  - simpl. lia.
Defined.

(** C4 as stated fails: for 10.05 the scratch text is ["10.05"], with a
    ['0'] in the units and a ['0'] in the decimals, and both are in the
    output. *)
Lemma copy_keeps_inner_zero_digits_example :
  f32_lit 1005 100 = S754_finite false 10538189 (-20)
  ∧ fill_scratch (f32_lit 1005 100)
    = Some (replicate 15 0 ++ [49; 48; 46; 48; 53], 15)
  ∧ utils_float_to_char (f32_lit 1005 100) (replicate 20 7)
    = Some (15, [49; 48; 46; 48; 53] ++ replicate 15 0)
  ∧ ([49; 48; 46; 48; 53] ++ replicate 15 0) !! 1%nat = Some ch_0
  ∧ ([49; 48; 46; 48; 53] ++ replicate 15 0) !! 3%nat = Some ch_0.
Proof. repeat split; vm_compute; reflexivity. Qed.

Ltac float_text d u :=
  intros out Hout;
  rewrite (utils_float_to_char_spec _ out d u) by (done || (vm_compute; reflexivity));
  reflexivity.

(** C2 on the code: the two decimals are never trimmed and a zero units
    part is not printed.  For 3.10 the output is ["3.10"], for 3.00 it is
    ["3.00"], for -2.5 it is ["-2.50"] and for 0.0 it is [".00"]. *)
Theorem utils_float_to_char_keeps_trailing_zeros :
  (f32_lit 310 100 = S754_finite false 13002342 (-22)
   ∧ f32_of_int 3 = S754_finite false 12582912 (-22)
   ∧ f32_lit (-25) 10 = S754_finite true 10485760 (-22)
   ∧ f32_of_int 0 = S754_zero false)
  ∧ (∀ out : list Z, (20 <= length out)%nat →
       utils_float_to_char (f32_lit 310 100) out
       = Some (16, bytes_of_string "3.10" ++ replicate 16 0 ++ drop 20 out))
  ∧ (∀ out : list Z, (20 <= length out)%nat →
       utils_float_to_char (f32_of_int 3) out
       = Some (16, bytes_of_string "3.00" ++ replicate 16 0 ++ drop 20 out))
  ∧ (∀ out : list Z, (20 <= length out)%nat →
       utils_float_to_char (f32_lit (-25) 10) out
       = Some (15, bytes_of_string "-2.50" ++ replicate 15 0 ++ drop 20 out))
  ∧ (∀ out : list Z, (20 <= length out)%nat →
       utils_float_to_char (f32_of_int 0) out
       = Some (17, bytes_of_string ".00" ++ replicate 17 0 ++ drop 20 out)).
Proof.
  split; [repeat split; vm_compute; reflexivity|].
  split; [float_text 10 3|].
  split; [float_text 0 3|].
  split; [float_text 50 2|float_text 0 0].
Qed.

Lemma utils_float_to_char_keeps_trailing_zeros_witness :
  utils_float_to_char (f32_lit 310 100) (replicate 20 7)
  = Some (16, [51; 46; 49; 48] ++ replicate 16 0)
  ∧ utils_float_to_char (f32_of_int 0) (replicate 20 7)
  = Some (17, [46; 48; 48] ++ replicate 17 0).
Proof.
  destruct utils_float_to_char_keeps_trailing_zeros as (_ & H1 & _ & _ & H4).
  split.
  - apply (H1 (replicate 20 7)). simpl; lia.
  - apply (H4 (replicate 20 7)). simpl; lia.
Defined.

(** A rounded result has the sign it was given. *)
Lemma binary_round_aux_sign sx mx ex lx :
  match binary_round_aux 24 128 sx mx ex lx with
  | S754_finite s _ _ | S754_zero s | S754_infinity s => s = sx
  | S754_nan => True
  end.
Proof.
  unfold binary_round_aux.
  destruct (shr_fexp 24 128 mx ex lx) as [mrs e'].
  destruct (shr_fexp 24 128 _ e' loc_Exact) as [mrs' e''].
  destruct (shr_m mrs'); [done| |done].
  by destruct (Z.leb _ _).
Qed.

Lemma f32_to_s16_nonneg x t :
  match x with S754_finite true _ _ => False | _ => True end →
  f32_to_s16 x = Some t → 0 <= t.
Proof.
  unfold f32_to_s16, f32_trunc.
  destruct x as [s|s| |[|] m e]; try done; intros _.
  - rewrite bind_Some. case_decide; [|done]. intros [= <-]. done.
  - rewrite bind_Some. case_decide; [|done]. intros [= <-].
    case_decide.
    + assert (0 < 2 ^ e) by (apply Z.pow_pos_nonneg; lia). nia.
    + apply Z.div_pos; [lia|]. apply Z.pow_pos_nonneg; lia.
Qed.

Lemma f32_mul_same_sign s m e m' e' :
  match f32_mul (S754_finite s m e) (S754_finite s m' e') with
  | S754_finite true _ _ => False
  | _ => True
  end.
Proof.
  unfold f32_mul, SFmul.
  pose proof (binary_round_aux_sign (xorb s s) (Z.pos (m * m')) (e + e')
                loc_Exact) as H.
  destruct (binary_round_aux _ _ _ _ _ _) as [| | |[|] ? ?]; try done.
  by destruct s.
Qed.










(** * Further properties *)

(** ** The reverser on every length *)

Lemma store_out (s : list Z) i v :
  Z.of_nat (length s) <= i → store s i v = None.
Proof. intros; unfold store; rewrite decide_False; [done|lia]. Qed.

(** An iteration whose upper index is outside the buffer faults. *)
Lemma reverse_loop_fault (s : list Z) i j :
  i < j → Z.of_nat (length s) <= j → reverse_loop s i j = None.
Proof.
  intros Hij Hj. rewrite reverse_loop_eq, decide_True by done.
  rewrite (load_out s j) by done. by destruct (load s i).
Qed.

(** [utils_reverse] on every length of type [uint32_t]. *)
Lemma utils_reverse_cases (s : list Z) (len : Z) :
  0 <= len < 2^32 → Z.of_nat (length s) < 2^32 →
  utils_reverse s len =
  if decide (len = 1) then Some s
  else if decide (1 <= len <= Z.of_nat (length s))
       then Some (reverse (take (Z.to_nat len) s) ++ drop (Z.to_nat len) s)
       else None.
Proof.
  intros Hlen Hs. destruct (decide (len = 1)) as [->|H1].
  - unfold utils_reverse. change (u32 (1 - 1)) with 0.
    by rewrite reverse_loop_eq, decide_False by lia.
  - destruct (decide (1 <= len <= Z.of_nat (length s))) as [Hin|Hout].
    + apply utils_reverse_spec; lia.
    + unfold utils_reverse. destruct (decide (len = 0)) as [->|H0].
      * change (u32 (0 - 1)) with (2^32 - 1). apply reverse_loop_fault; lia.
      * rewrite u32_small by lia. apply reverse_loop_fault; lia.
Qed.

(** X1: on a buffer of at least [len >= 1] bytes the call returns a buffer of
    the same length in which byte [i < len] is the former byte
    [len - 1 - i] and every byte from [len] on is the former one. *)
Theorem utils_reverse_lookup (s : list Z) (len : Z) :
  1 <= len <= Z.of_nat (length s) → len < 2^32 →
  ∃ r : list Z,
    utils_reverse s len = Some r
    ∧ length r = length s
    ∧ (∀ i : nat, (i < Z.to_nat len)%nat →
         r !! i = s !! (Z.to_nat len - 1 - i)%nat)
    ∧ (∀ i : nat, (Z.to_nat len <= i)%nat → r !! i = s !! i).
Proof.
  intros Hlen Hu. eexists. split; [by apply utils_reverse_spec|].
  set (k := Z.to_nat len).
  assert (Hk : length (take k s) = k) by (rewrite length_take; lia).
  split; [|split].
  - rewrite length_app, length_reverse, length_take, length_drop. lia.
  - intros i Hi.
    rewrite lookup_app_l by (rewrite length_reverse; lia).
    rewrite reverse_lookup by lia. rewrite Hk.
    rewrite lookup_take_lt by lia. f_equal. lia.
  - intros i Hi.
    rewrite lookup_app_r by (rewrite length_reverse; lia).
    rewrite length_reverse, Hk, lookup_drop. f_equal. lia.
Qed.

Lemma utils_reverse_lookup_witness :
  ∃ r : list Z,
    utils_reverse [10; 20; 30; 40] 3 = Some r
    ∧ length r = length [10; 20; 30; 40]
    ∧ (∀ i : nat, (i < Z.to_nat 3)%nat →
         r !! i = [10; 20; 30; 40] !! (Z.to_nat 3 - 1 - i)%nat)
    ∧ (∀ i : nat, (Z.to_nat 3 <= i)%nat → r !! i = [10; 20; 30; 40] !! i).
Proof. apply (utils_reverse_lookup [10; 20; 30; 40] 3); simpl; lia. Defined.

(** X2: for a length of type [uint32_t] the call returns exactly when the
    length is 1, where no byte is touched, or the buffer holds that many
    bytes; a length of 0 and a length beyond the buffer fault. *)
Theorem utils_reverse_defined (s : list Z) (len : Z) :
  0 <= len < 2^32 → Z.of_nat (length s) < 2^32 →
  (is_Some (utils_reverse s len)
   ↔ len = 1 ∨ 1 <= len <= Z.of_nat (length s))
  ∧ (len = 1 → utils_reverse s len = Some s).
Proof.
  intros Hlen Hs. rewrite utils_reverse_cases by done. split.
  - destruct (decide (len = 1)) as [H1|H1]; [by split; eauto|].
    destruct (decide (1 <= len <= Z.of_nat (length s))) as [Hin|Hout].
    + by split; eauto.
    + split; [by intros [? [=]]|]. intros [?|?]; done.
  - intros ->. by rewrite decide_True.
Qed.

Lemma utils_reverse_defined_witness :
  (is_Some (utils_reverse [10; 20; 30] 4) ↔ 4 = 1 ∨ 1 <= 4 <= 3)
  ∧ (is_Some (utils_reverse [] 1) ↔ 1 = 1 ∨ 1 <= 1 <= 0).
Proof.
  split.
  - apply (utils_reverse_defined [10; 20; 30] 4); simpl; lia.
  - apply (utils_reverse_defined [] 1); simpl; lia.
Defined.

(** X3: whenever the call returns, the buffer returned is a rearrangement of
    the one given: no byte is lost, added or duplicated. *)
Theorem utils_reverse_permutation (s r : list Z) (len : Z) :
  0 <= len < 2^32 → Z.of_nat (length s) < 2^32 →
  utils_reverse s len = Some r → r ≡ₚ s.
Proof.
  intros Hlen Hs. rewrite utils_reverse_cases by done.
  repeat case_decide; intros [= <-]; [done|].
  rewrite reverse_Permutation. by rewrite take_drop.
Qed.

Lemma utils_reverse_permutation_witness :
  [30; 20; 10; 40] ≡ₚ [10; 20; 30; 40].
Proof.
  apply (utils_reverse_permutation [10; 20; 30; 40] [30; 20; 10; 40] 3);
    [lia|simpl; lia|vm_compute; reflexivity].
Defined.

(** ** The integer formatter on every input *)

Lemma decimal_string_length_u32 nr :
  0 <= nr < 2^32 → (1 <= String.length (decimal_string nr) <= 10)%nat.
Proof.
  intros Hnr.
  destruct (decimal_string_digits nr) as (Hk1 & _ & _ & Hge); [lia|].
  split; [done|]. destruct Hge as [->|Hge]; [lia|].
  set (K := String.length (decimal_string nr)) in *.
  replace (Z.of_nat K - 1) with (Z.of_nat (K - 1)) in Hge by lia.
  pose proof (pow10_u32 (K - 1) nr Hge ltac:(lia)). lia.
Qed.

Lemma decimal_string_length_sign n :
  String.length (decimal_string n)
  = if decide (n < 0)
    then S (String.length (decimal_string (Z.abs n)))
    else String.length (decimal_string (Z.abs n)).
Proof. destruct n; done. Qed.

(** Which path [utils_itoa] takes: the numeral of [|n|] has at most
    [max 1 s_max] digits, or it has more. *)
Lemma utils_itoa_paths n s_max :
  0 <= Z.abs n < 2^32 →
  let k := Z.to_nat (Z.max 1 s_max) in
  let K := String.length (decimal_string (Z.abs n)) in
  ((K <= k)%nat → Z.of_nat K <= s_max ∨ K = 1%nat)
  ∧ ((k < K)%nat → 10 ^ Z.of_nat k <= Z.abs n ∧ (k <= 9)%nat).
Proof.
  intros Hn k K.
  destruct (decimal_string_digits (Z.abs n)) as (Hk1 & _ & _ & Hge); [lia|].
  fold K in Hk1, Hge. split.
  - intros HK. destruct (decide (1 <= s_max)); [left; lia|right; lia].
  - intros HK. destruct Hge as [HK1|Hge]; [lia|].
    assert (10 ^ Z.of_nat k <= 10 ^ (Z.of_nat K - 1))
      by (apply Z.pow_le_mono_r; lia).
    split; [lia|]. apply (pow10_u32 k (Z.abs n)); lia.
Qed.

(** The loop faults when the buffer ends before the loop does. *)
Lemma itoa_loop_short (mid : list Z) :
  ∀ (pre : list Z) (nr s_max : Z),
    0 <= nr →
    Z.of_nat (length pre + length mid) < 2^32 →
    (mid ≠ [] →
     nr / 10 ^ Z.of_nat (length mid) > 0
     ∧ Z.of_nat (length pre + length mid) < s_max) →
    itoa_loop (pre ++ mid) (Z.of_nat (length pre)) nr s_max = None.
Proof.
  induction mid as [|x mid IH]; intros pre nr s_max Hnr Hr Hcont;
    rewrite itoa_loop_eq.
  - rewrite app_nil_r, store_out by lia. done.
  - destruct Hcont as [Hc1 Hc2]; [done|]. cbn [length] in *.
    rewrite (store_middle pre) by done. rewrite bind_Some.
    rewrite div_pow10_succ in Hc1.
    pose proof (div_pow10_pos nr 1 Hnr) as Hd. rewrite Z.pow_1_r in Hd.
    rewrite u32_small by lia.
    rewrite decide_True.
    2:{ split; [|lia]. destruct (decide (nr / 10 = 0)) as [Hz|]; [|lia].
        rewrite Hz, Z.div_0_l in Hc1 by lia. lia. }
    replace (Z.of_nat (length pre) + 1)
      with (Z.of_nat (length (pre ++ [u8 (u8 (nr mod 10) + ch_0)])))
      by (rewrite length_app; simpl; lia).
    replace (pre ++ u8 (u8 (nr mod 10) + ch_0) :: mid)
      with ((pre ++ [u8 (u8 (nr mod 10) + ch_0)]) ++ mid)
      by (by rewrite <- (assoc_L (++))).
    apply IH; [done|rewrite length_app; simpl; lia|].
    intros Hne. split.
    + exact Hc1.
    + rewrite length_app. simpl. lia.
Qed.

Lemma string_of_bytes_of_string t : string_of_bytes (bytes_of_string t) = t.
Proof.
  unfold string_of_bytes, bytes_of_string.
  induction t as [|a t IH]; [done|]. cbn.
  rewrite N2Z.id, ascii_N_embedding. f_equal. exact IH.
Qed.

Lemma decode_decimal_string n :
  decode_decimal (bytes_of_string (decimal_string n)) = Some n.
Proof.
  unfold decode_decimal, decimal_string. rewrite string_of_bytes_of_string.
  rewrite NilZero.isi.
  - cbn. by rewrite DecimalZ.of_to.
  - destruct n as [|p|p]; try done. cbn. intros [= H].
    by apply Unsigned.to_uint_nonnil in H.
  - destruct n as [|p|p]; try done. cbn. intros [= H].
    by apply Unsigned.to_uint_nonnil in H.
Qed.

Lemma decimal_string_nonnull n :
  Forall (λ c, c ≠ 0) (bytes_of_string (decimal_string n)).
Proof.
  assert (Hpos : ∀ m, 0 <= m →
            Forall (λ c, c ≠ 0) (bytes_of_string (decimal_string m))).
  { intros m Hm. destruct (decimal_string_digits m Hm) as (_ & -> & _).
    apply Forall_reverse.
    eapply Forall_impl; [apply digits_lsb_chars|]. intros c Hc. simpl in Hc. lia. }
  destruct n as [|p|p]; [by apply Hpos|by apply Hpos|].
  rewrite decimal_string_neg, bytes_of_string_cons. constructor; [done|].
  by apply Hpos.
Qed.

Lemma drop_app_drop (A s : list Z) (a m : nat) :
  length A = a → (a <= m)%nat → drop m (A ++ drop a s) = drop m s.
Proof.
  intros HA Hm. rewrite drop_app_ge by lia. rewrite drop_drop, HA.
  f_equal. lia.
Qed.

Lemma length_app_drop (A s : list Z) (a : nat) :
  length A = a → (a <= length s)%nat → length (A ++ drop a s) = length s.
Proof. intros HA Ha. rewrite length_app, length_drop. lia. Qed.

(** X4: the text written on the success path reads back as [n]: the bytes
    before the terminator, given to the decimal reader of the standard
    library, denote the integer that was converted. *)
Theorem utils_itoa_round_trip n (s : list Z) s_max :
  - 2^31 <= n < 2^31 →
  Z.of_nat (String.length (decimal_string (Z.abs n))) <= s_max →
  (String.length (decimal_string n) < length s)%nat →
  ∃ (s' : list Z) (c : Z),
    utils_itoa n s s_max = Some (s', c)
    ∧ decode_decimal (take (Z.to_nat c) s') = Some n.
Proof.
  intros Hn Hmax Hlen. eexists _, _.
  split; [apply utils_itoa_success; auto|].
  rewrite Nat2Z.id, take_app_length' by (by rewrite length_bytes_of_string).
  apply decode_decimal_string.
Qed.

Lemma utils_itoa_round_trip_witness :
  ∃ (s' : list Z) (c : Z),
    utils_itoa (-40961) (replicate 8 7) 5 = Some (s', c)
    ∧ decode_decimal (take (Z.to_nat c) s') = Some (-40961).
Proof.
  apply (utils_itoa_round_trip (-40961) (replicate 8 7) 5);
    [lia|vm_compute; discriminate|simpl; lia].
Defined.

(** X5: a buffer of 12 bytes is enough for every 32-bit [n] and every
    [s_max]: the call returns, the count is between 1 and 11, and no byte
    from index 12 on is changed. *)
Theorem utils_itoa_twelve_bytes n (s : list Z) s_max :
  - 2^31 <= n < 2^31 → (12 <= length s)%nat →
  ∃ (s' : list Z) (c : Z),
    utils_itoa n s s_max = Some (s', c)
    ∧ 1 <= c <= 11
    ∧ length s' = length s
    ∧ drop 12 s' = drop 12 s.
Proof.
  intros Hn Hlen.
  destruct (utils_itoa_paths n s_max ltac:(lia)) as [Hfit Hcut].
  pose proof (decimal_string_length_u32 (Z.abs n) ltac:(lia)) as HK.
  pose proof (decimal_string_length_sign n) as HL.
  set (K := String.length (decimal_string (Z.abs n))) in *.
  set (L := String.length (decimal_string n)) in *.
  set (k := Z.to_nat (Z.max 1 s_max)) in *.
  assert (HL' : (K <= L <= S K)%nat) by (case_decide; lia).
  destruct (decide (K <= k)%nat) as [Hk|Hk].
  - eexists _, _. split; [apply utils_itoa_success; [done|by apply Hfit|]|].
    + fold L. lia.
    + fold L. split; [lia|].
      replace (bytes_of_string (decimal_string n) ++ ch_nul :: drop (S L) s)
        with ((bytes_of_string (decimal_string n) ++ [ch_nul]) ++ drop (S L) s)
        by (by rewrite <- (assoc_L (++))).
      assert (Hb : length (bytes_of_string (decimal_string n) ++ [ch_nul]) = S L).
      { rewrite length_app, length_bytes_of_string. simpl. lia. }
      split; [apply length_app_drop; [done|lia]|apply drop_app_drop; [done|lia]].
  - destruct Hcut as [Hge Hk9]; [lia|].
    eexists _, _. split; [apply utils_itoa_truncated; [done|done|]|].
    + fold k. lia.
    + fold k. split; [lia|].
      pose proof (length_digits_lsb k (Z.abs n)).
      split; [apply length_app_drop; [done|lia]|apply drop_app_drop; [done|lia]].
Qed.

Lemma utils_itoa_twelve_bytes_witness :
  ∃ (s' : list Z) (c : Z),
    utils_itoa (-2147483648) (replicate 13 7) 4 = Some (s', c)
    ∧ 1 <= c <= 11
    ∧ length s' = length (replicate 13 7)
    ∧ drop 12 s' = drop 12 (replicate 13 7).
Proof.
  apply (utils_itoa_twelve_bytes (-2147483648) (replicate 13 7) 4);
    [lia|simpl; lia].
Defined.

(** X6: the count returned, for every 32-bit [n] and every [s_max]: the
    length of the numeral of [n], sign included, when [|n|] has at most
    [max 1 s_max] digits, and [max 1 s_max] otherwise. *)
Theorem utils_itoa_count n (s : list Z) s_max :
  - 2^31 <= n < 2^31 → (12 <= length s)%nat →
  ∃ s' : list Z,
    utils_itoa n s s_max
    = Some (s',
            if decide (Z.of_nat (String.length (decimal_string (Z.abs n)))
                       <= Z.max 1 s_max)
            then Z.of_nat (String.length (decimal_string n))
            else Z.max 1 s_max).
Proof.
  intros Hn Hlen.
  destruct (utils_itoa_paths n s_max ltac:(lia)) as [Hfit Hcut].
  pose proof (decimal_string_length_u32 (Z.abs n) ltac:(lia)) as HK.
  pose proof (decimal_string_length_sign n) as HL.
  set (K := String.length (decimal_string (Z.abs n))) in *.
  set (k := Z.to_nat (Z.max 1 s_max)) in *.
  destruct (decide (Z.of_nat K <= Z.max 1 s_max)) as [Hk|Hk].
  - eexists. apply utils_itoa_success; [done|apply Hfit; lia|].
    rewrite HL. case_decide; lia.
  - destruct Hcut as [Hge Hk9]; [lia|].
    eexists. rewrite utils_itoa_truncated; [|done|done|fold k; lia].
    fold k. do 2 f_equal. lia.
Qed.

Lemma utils_itoa_count_witness :
  ∃ s' : list Z,
    utils_itoa (-7000) (replicate 12 7) 2
    = Some (s',
            if decide (Z.of_nat (String.length (decimal_string (Z.abs (-7000))))
                       <= Z.max 1 2)
            then Z.of_nat (String.length (decimal_string (-7000)))
            else Z.max 1 2).
Proof.
  apply (utils_itoa_count (-7000) (replicate 12 7) 2); [lia|simpl; lia].
Defined.

(** X7: on the success path the buffer must hold the numeral and its
    terminator: the call returns exactly when the buffer is longer than
    the numeral, whatever [s_max] is; a buffer of as many bytes as the
    numeral, or fewer, makes it fault. *)
Theorem utils_itoa_buffer_needed n (s : list Z) s_max :
  - 2^31 <= n < 2^31 →
  (Z.of_nat (String.length (decimal_string (Z.abs n))) <= s_max
   ∨ String.length (decimal_string (Z.abs n)) = 1%nat) →
  (is_Some (utils_itoa n s s_max)
   ↔ (String.length (decimal_string n) < length s)%nat).
Proof.
  intros Hn Hmax. split.
  2:{ intros Hlen. rewrite utils_itoa_success by done. by eexists. }
  intros Hsome.
  destruct (decide (String.length (decimal_string n) < length s)%nat)
    as [|Hshort]; [done|exfalso].
  revert Hsome. unfold utils_itoa. rewrite magnitude_wrap by done.
  pose proof (decimal_string_length_u32 (Z.abs n) ltac:(lia)) as HK.
  pose proof (decimal_string_length_sign n) as HL.
  destruct (decimal_string_digits (Z.abs n)) as (_ & _ & Hlt & Hge); [lia|].
  set (K := String.length (decimal_string (Z.abs n))) in *.
  destruct (decide (length s < K)%nat) as [Hs|Hs].
  - pose proof (itoa_loop_short s [] (Z.abs n) s_max) as H.
    cbn [length app Nat.add] in H. change (Z.of_nat 0) with 0 in H.
    rewrite H; [by intros [? [=]]|lia|lia|].
    intros Hne.
    assert (HK2 : (2 <= K)%nat) by (destruct s; [done|simpl in Hs; lia]).
    destruct Hge as [HK1|Hge]; [lia|].
    destruct Hmax as [Hmax|HK1]; [|lia]. split; [|lia].
    assert (10 ^ Z.of_nat (length s) <= 10 ^ (Z.of_nat K - 1))
      by (apply Z.pow_le_mono_r; lia).
    assert (1 <= Z.abs n / 10 ^ Z.of_nat (length s)); [|lia].
    apply Z.div_le_lower_bound; lia.
  - rewrite itoa_loop_digits by (fold K; done || lia).
    fold K. rewrite bind_Some. cbv beta iota.
    rewrite (decide_True (P := 0 = 0)) by done.
    pose proof (length_digits_lsb K (Z.abs n)) as HD.
    assert (Hlen : length (digits_lsb K (Z.abs n) ++ drop K s) = length s)
      by (apply length_app_drop; [done|lia]).
    destruct (decide (n < 0)) as [Hneg|Hneg].
    + rewrite (decide_True (P := FALSE ≠ TRUE)) by done.
      destruct (decide (length s = K)) as [HsK|HsK].
      * rewrite store_out by lia. by intros [? [=]].
      * rewrite store_in by lia. rewrite !bind_Some. cbv beta iota.
        rewrite u32_small by lia.
        rewrite store_out by (rewrite length_insert; lia).
        by intros [? [=]].
    + rewrite (decide_False (P := FALSE ≠ FALSE)) by (intros H; by apply H).
      rewrite bind_Some. cbv beta iota.
      rewrite store_out by lia. by intros [? [=]].
Qed.

Lemma utils_itoa_buffer_needed_witness :
  (is_Some (utils_itoa (-123) [7; 7; 7; 7] 3)
   ↔ (String.length (decimal_string (-123)) < length [7; 7; 7; 7])%nat)
  ∧ utils_itoa (-123) [7; 7; 7; 7] 3 = None.
Proof.
  split.
  - apply (utils_itoa_buffer_needed (-123) [7; 7; 7; 7] 3);
      [lia|left; vm_compute; discriminate].
  - vm_compute. reflexivity.
Defined.

(** X8: on the success path the buffer holds a C string whose length is the
    count returned: the byte at that index is null and no byte before it
    is. *)
Theorem utils_itoa_c_string n (s : list Z) s_max :
  - 2^31 <= n < 2^31 →
  Z.of_nat (String.length (decimal_string (Z.abs n))) <= s_max →
  (String.length (decimal_string n) < length s)%nat →
  ∃ (s' : list Z) (c : nat),
    utils_itoa n s s_max = Some (s', Z.of_nat c)
    ∧ s' !! c = Some 0
    ∧ (∀ i : nat, (i < c)%nat → ∃ b, s' !! i = Some b ∧ b ≠ 0).
Proof.
  intros Hn Hmax Hlen. eexists _, _.
  split; [apply utils_itoa_success; auto|].
  pose proof (length_bytes_of_string (decimal_string n)) as Hb.
  split.
  - by apply list_lookup_middle.
  - intros i Hi.
    destruct (lookup_lt_is_Some_2 (bytes_of_string (decimal_string n)) i)
      as [b Hbi]; [lia|].
    exists b. split; [by apply lookup_app_l_Some|].
    pose proof (decimal_string_nonnull n) as HF.
    rewrite Forall_lookup in HF. by apply (HF i).
Qed.

Lemma utils_itoa_c_string_witness :
  ∃ (s' : list Z) (c : nat),
    utils_itoa 905 (replicate 6 7) 3 = Some (s', Z.of_nat c)
    ∧ s' !! c = Some 0
    ∧ (∀ i : nat, (i < c)%nat → ∃ b, s' !! i = Some b ∧ b ≠ 0).
Proof.
  apply (utils_itoa_c_string 905 (replicate 6 7) 3);
    [lia|vm_compute; discriminate|simpl; lia].
Defined.

(** ** The float formatter on every input *)

Lemma decimals_bound a : 0 <= a → 0 <= u16 (Z.rem a 100) <= 99.
Proof.
  intros Ha. rewrite Z.rem_mod_nonneg by lia.
  pose proof (Z.mod_pos_bound a 100 eq_refl).
  rewrite u16_small by lia. lia.
Qed.

(** Both conversions are made on a value whose sign has been removed. *)
Lemma float_parts_magnitude val d u :
  float_parts val = Some (d, u) →
  ∃ a, 0 <= a ∧ d = u16 (Z.rem a 100) ∧ 0 <= u.
Proof.
  unfold float_parts.
  change (f32_of_int 0) with (S754_zero false).
  change (f32_of_int (-100)) with (S754_finite true 13107200 (-17)).
  change (f32_of_int (-1)) with (S754_finite true 8388608 (-23)).
  change (f32_of_int 100) with (S754_finite false 13107200 (-17)).
  destruct val as [s|s| |s m e].
  - cbn [f32_lt SFltb SFcompare]. destruct s; cbn; intros [= <- <-];
      by exists 0.
  - destruct s; cbn; done.
  - cbn. done.
  - destruct s; cbn [f32_lt SFltb SFcompare].
    + pose proof (f32_mul_same_sign true m e 13107200 (-17)) as Ha.
      pose proof (f32_mul_same_sign true 8388608 (-23) m e) as Hb.
      destruct (f32_to_s16 (f32_mul (S754_finite true m e) _)) as [a|] eqn:Ea;
        [|done].
      rewrite bind_Some.
      destruct (f32_to_s16 (f32_mul _ (S754_finite true m e))) as [b|] eqn:Eb;
        [|done].
      rewrite bind_Some. intros [= <- <-].
      apply f32_to_s16_nonneg in Ea; [|done].
      apply f32_to_s16_nonneg in Eb; [|done].
      by exists a.
    + pose proof (f32_mul_same_sign false m e 13107200 (-17)) as Ha.
      destruct (f32_to_s16 (f32_mul (S754_finite false m e) _)) as [a|] eqn:Ea;
        [|done].
      rewrite bind_Some.
      destruct (f32_to_s16 (S754_finite false m e)) as [b|] eqn:Eb; [|done].
      rewrite bind_Some. intros [= <- <-].
      apply f32_to_s16_nonneg in Ea; [|done].
      apply f32_to_s16_nonneg in Eb; [|done].
      by exists a.
Qed.

(** X9: whenever the two conversions are defined, [decimals] is between 0
    and 99 and [units] is between 0 and 32767: the sign of the value is
    in neither, and the two decimals printed are the tens and the ones of
    [decimals]. *)
Theorem float_parts_bounds val d u :
  float_parts val = Some (d, u) →
  0 <= d <= 99 ∧ 0 <= u <= 32767 ∧ (d / 10) mod 10 = d / 10.
Proof.
  intros Hp. destruct (float_parts_range _ _ _ Hp) as [_ Hu].
  destruct (float_parts_magnitude _ _ _ Hp) as (a & Ha & -> & Hu0).
  pose proof (decimals_bound a Ha) as Hd.
  split; [done|]. split; [lia|].
  apply Z.mod_small. split; [apply Z.div_pos; lia|].
  apply Z.div_lt_upper_bound; lia.
Qed.

Lemma float_parts_bounds_witness :
  0 <= 50 <= 99 ∧ 0 <= 2 <= 32767 ∧ (50 / 10) mod 10 = 50 / 10.
Proof.
  apply (float_parts_bounds (f32_lit (-25) 10) 50 2).
  vm_compute. reflexivity.
Defined.

(** The clearing loop faults on a buffer shorter than 20 bytes. *)
Lemma clear_loop_short (mid : list Z) :
  ∀ pre : list Z,
    (length pre + length mid < 20)%nat →
    clear_loop (pre ++ mid) (Z.of_nat (length pre)) = None.
Proof.
  induction mid as [|x mid IH]; intros pre Hlen; rewrite clear_loop_eq;
    simpl in Hlen; rewrite decide_True by lia.
  - rewrite app_nil_r, store_out by lia. done.
  - rewrite (store_middle pre) by done. rewrite bind_Some.
    rewrite u8_small by lia.
    replace (Z.of_nat (length pre) + 1) with (Z.of_nat (length (pre ++ [0])))
      by (rewrite length_app; simpl; lia).
    replace (pre ++ 0 :: mid) with ((pre ++ [0]) ++ mid)
      by (by rewrite <- (assoc_L (++))).
    apply IH. rewrite length_app. simpl. lia.
Qed.

(** X10: the call returns exactly when [out] holds 20 bytes and both
    conversions of the value to [int16_t] are defined; a NaN and the
    infinities are among the values for which they are not. *)
Theorem utils_float_to_char_defined :
  (∀ val (out : list Z),
     is_Some (utils_float_to_char val out)
     ↔ (20 <= length out)%nat ∧ is_Some (float_parts val))
  ∧ (∀ out : list Z, utils_float_to_char S754_nan out = None)
  ∧ (∀ (b : bool) (out : list Z),
       utils_float_to_char (S754_infinity b) out = None).
Proof.
  split; [|split].
  - intros val out. split.
    + intros Hsome. destruct (decide (20 <= length out)%nat) as [Hlen|Hlen].
      * split; [done|]. destruct (float_parts val) as [p|] eqn:Hp; [by eexists|].
        rewrite utils_float_to_char_undefined in Hsome by done.
        by destruct Hsome.
      * exfalso. revert Hsome. unfold utils_float_to_char.
        pose proof (clear_loop_short out []) as H. cbn [length app Nat.add] in H.
        change (Z.of_nat 0) with 0 in H. rewrite H by lia.
        by intros [? [=]].
    + intros [Hlen [[d u] Hp]].
      rewrite (utils_float_to_char_spec val out d u) by done. by eexists.
  - intros out. by apply utils_float_to_char_undefined.
  - intros b out. apply utils_float_to_char_undefined. by destruct b.
Qed.

Lemma utils_float_to_char_defined_witness :
  (is_Some (utils_float_to_char (f32_lit 1999 1000) (replicate 19 7))
   ↔ (20 <= length (replicate 19 7))%nat
     ∧ is_Some (float_parts (f32_lit 1999 1000)))
  ∧ utils_float_to_char (S754_infinity true) (replicate 20 7) = None.
Proof.
  destruct utils_float_to_char_defined as (Hiff & _ & Hinf).
  split; [apply Hiff|apply Hinf].
Defined.

(** X11: the first 20 bytes of the result depend on the value only, not on
    what [out] held, and the bytes of [out] from index 20 on are left as
    they were. *)
Theorem utils_float_to_char_frame val (out1 out2 : list Z) :
  (20 <= length out1)%nat → (20 <= length out2)%nat →
  (utils_float_to_char val out1 = None ∧ utils_float_to_char val out2 = None)
  ∨ ∃ (s : Z) (t : list Z),
      length t = 20%nat
      ∧ utils_float_to_char val out1 = Some (s, t ++ drop 20 out1)
      ∧ utils_float_to_char val out2 = Some (s, t ++ drop 20 out2).
Proof.
  intros H1 H2. destruct (float_parts val) as [[d u]|] eqn:Hp.
  - right. destruct (float_parts_range _ _ _ Hp) as [_ Hu].
    pose proof (length_scratch_text (f32_lt val (f32_of_int 0)) d u ltac:(lia))
      as HL.
    set (text := scratch_text (f32_lt val (f32_of_int 0)) d u) in *.
    exists (Z.of_nat (20 - length text)),
           (text ++ replicate (20 - length text) 0).
    split; [|split].
    + rewrite length_app, length_replicate. destruct (f32_lt _ _); lia.
    + rewrite <- (assoc_L (++)). by apply utils_float_to_char_spec.
    + rewrite <- (assoc_L (++)). by apply utils_float_to_char_spec.
  - left. by rewrite !utils_float_to_char_undefined.
Qed.

Lemma utils_float_to_char_frame_witness :
  (utils_float_to_char (f32_lit 310 100) (replicate 22 7) = None
   ∧ utils_float_to_char (f32_lit 310 100) (replicate 20 9) = None)
  ∨ ∃ (s : Z) (t : list Z),
      length t = 20%nat
      ∧ utils_float_to_char (f32_lit 310 100) (replicate 22 7)
        = Some (s, t ++ drop 20 (replicate 22 7))
      ∧ utils_float_to_char (f32_lit 310 100) (replicate 20 9)
        = Some (s, t ++ drop 20 (replicate 20 9)).
Proof.
  apply (utils_float_to_char_frame (f32_lit 310 100)
           (replicate 22 7) (replicate 20 9)); simpl; lia.
Defined.

(** X12: the pointer returned addresses the text in the scratch buffer: it is
    between 11 and 17, so at most 9 of the 20 scratch bytes are used, the
    scratch bytes before it are null, and the bytes from it on are the
    non-null text that [out] starts with. *)
Theorem utils_float_to_char_offset val (out : list Z) d u :
  float_parts val = Some (d, u) → (20 <= length out)%nat →
  ∃ (tmp : list Z) (s : nat) (out' : list Z),
    fill_scratch val = Some (tmp, Z.of_nat s)
    ∧ utils_float_to_char val out = Some (Z.of_nat s, out')
    ∧ (11 <= s <= 17)%nat
    ∧ length tmp = 20%nat
    ∧ take s tmp = replicate s 0
    ∧ Forall (λ c, c ≠ 0) (drop s tmp)
    ∧ take (20 - s) out' = drop s tmp.
Proof.
  intros Hp Hout. destruct (float_parts_range _ _ _ Hp) as [_ Hu].
  pose proof (length_scratch_text (f32_lt val (f32_of_int 0)) d u ltac:(lia))
    as HL.
  pose proof (scratch_text_nonzero (f32_lt val (f32_of_int 0)) d u) as HF.
  pose proof (fill_scratch_spec val d u Hp) as Hfill.
  pose proof (utils_float_to_char_spec val out d u Hp Hout) as Hfmt.
  cbv zeta in Hfill, Hfmt.
  set (text := scratch_text (f32_lt val (f32_of_int 0)) d u) in *.
  assert (HL' : (3 <= length text <= 9)%nat) by (destruct (f32_lt _ _); lia).
  eexists _, _, _. split; [exact Hfill|]. split; [exact Hfmt|].
  assert (Hr : length (replicate (20 - length text) 0) = (20 - length text)%nat)
    by apply length_replicate.
  split; [lia|]. split; [rewrite length_app, Hr; lia|].
  split; [by rewrite take_app_length'|].
  split; [by rewrite drop_app_length'|].
  rewrite drop_app_length' by done.
  apply take_app_length'. lia.
Qed.

Lemma utils_float_to_char_offset_witness :
  ∃ (tmp : list Z) (s : nat) (out' : list Z),
    fill_scratch (f32_lit (-25) 10) = Some (tmp, Z.of_nat s)
    ∧ utils_float_to_char (f32_lit (-25) 10) (replicate 20 7)
      = Some (Z.of_nat s, out')
    ∧ (11 <= s <= 17)%nat
    ∧ length tmp = 20%nat
    ∧ take s tmp = replicate s 0
    ∧ Forall (λ c, c ≠ 0) (drop s tmp)
    ∧ take (20 - s) out' = drop s tmp.
Proof.
  apply (utils_float_to_char_offset (f32_lit (-25) 10) (replicate 20 7) 50 2);
    [vm_compute; reflexivity|simpl; lia].
Defined.

Lemma units_text_chars u : Forall (λ c, 48 <= c <= 57) (units_text u).
Proof.
  unfold units_text. case_decide; [|constructor].
  destruct (decimal_string_digits u) as (_ & -> & _); [lia|].
  apply Forall_reverse, digits_lsb_chars.
Qed.

(** X13: the first byte written is the minus sign exactly when the value
    compares below zero; the text of any other value, the negative zero
    included, starts with a digit or with the point. *)
Theorem utils_float_to_char_sign val (out : list Z) d u :
  float_parts val = Some (d, u) → (20 <= length out)%nat →
  ∃ (s : Z) (out' : list Z),
    utils_float_to_char val out = Some (s, out')
    ∧ (out' !! 0%nat = Some ch_minus ↔ f32_lt val (f32_of_int 0) = true)
    ∧ (f32_lt val (f32_of_int 0) = false →
       ∃ c, out' !! 0%nat = Some c ∧ (c = ch_dot ∨ 48 <= c <= 57)).
Proof.
  intros Hp Hout.
  pose proof (utils_float_to_char_spec val out d u Hp Hout) as Hfmt.
  cbv zeta in Hfmt. eexists _, _. split; [exact Hfmt|].
  pose proof (units_text_chars u) as Hchars.
  unfold scratch_text.
  destruct (f32_lt val (f32_of_int 0)); cbn [app].
  - split; [done|]. done.
  - destruct (units_text u) as [|c text]; cbn [app lookup list_lookup].
    + split; [|intros _; exists ch_dot; split; [done|by left]].
      split; [|done]. intros Hc. discriminate Hc.
    + apply Forall_cons in Hchars as [Hc _].
      split; [|intros _; exists c; split; [done|by right]].
      split; [|done]. intros [= ->]. unfold ch_minus in Hc. lia.
Qed.

Lemma utils_float_to_char_sign_witness :
  ∃ (s : Z) (out' : list Z),
    utils_float_to_char (S754_zero true) (replicate 20 7) = Some (s, out')
    ∧ (out' !! 0%nat = Some ch_minus
       ↔ f32_lt (S754_zero true) (f32_of_int 0) = true)
    ∧ (f32_lt (S754_zero true) (f32_of_int 0) = false →
       ∃ c, out' !! 0%nat = Some c ∧ (c = ch_dot ∨ 48 <= c <= 57)).
Proof.
  apply (utils_float_to_char_sign (S754_zero true) (replicate 20 7) 0 0);
    [vm_compute; reflexivity|simpl; lia].
Defined.

(** X14: the text in full: an optional minus sign, the decimal numeral of
    [units] when [units] is not 0 and nothing when it is (no 0 is written
    before the point), the point, and the tens and the ones of
    [decimals]; null bytes follow up to index 19. *)
Theorem utils_float_to_char_text val (out : list Z) d u :
  float_parts val = Some (d, u) → (20 <= length out)%nat →
  let sign := if f32_lt val (f32_of_int 0) then [ch_minus] else [] in
  let whole :=
    if decide (u = 0) then [] else bytes_of_string (decimal_string u) in
  let len := (length sign + length whole + 3)%nat in
  (len <= 9)%nat
  ∧ utils_float_to_char val out
    = Some (Z.of_nat (20 - len),
            sign ++ whole ++ [ch_dot; d / 10 + ch_0; d mod 10 + ch_0]
            ++ replicate (20 - len) 0 ++ drop 20 out).
Proof.
  intros Hp Hout sign whole len.
  destruct (float_parts_range _ _ _ Hp) as [_ Hu].
  destruct (float_parts_magnitude _ _ _ Hp) as (a & Ha & Hd & Hu0).
  pose proof (decimals_bound a Ha) as Hd99. rewrite <- Hd in Hd99.
  pose proof (length_scratch_text (f32_lt val (f32_of_int 0)) d u ltac:(lia))
    as HL.
  pose proof (utils_float_to_char_spec val out d u Hp Hout) as Hfmt.
  cbv zeta in Hfmt.
  assert (Htens : (d / 10) mod 10 = d / 10).
  { apply Z.mod_small. split; [apply Z.div_pos; lia|].
    apply Z.div_lt_upper_bound; lia. }
  assert (Hwhole : units_text u = whole).
  { unfold units_text, whole.
    destruct (decide (u > 0)), (decide (u = 0)); try done; lia. }
  assert (Htext : scratch_text (f32_lt val (f32_of_int 0)) d u
                  = sign ++ whole ++ [ch_dot; d / 10 + ch_0; d mod 10 + ch_0]).
  { unfold scratch_text. by rewrite Hwhole, Htens. }
  assert (Hlen : length (scratch_text (f32_lt val (f32_of_int 0)) d u) = len).
  { rewrite Htext, !length_app. simpl. unfold len. lia. }
  rewrite Hlen in HL, Hfmt. rewrite Htext in Hfmt.
  split; [destruct (f32_lt _ _); lia|].
  rewrite Hfmt. by rewrite <- !(assoc_L (++)).
Qed.

Lemma utils_float_to_char_text_witness :
  let val := f32_lit (-5) 10 in
  let out := replicate 21 7 in
  let sign := if f32_lt val (f32_of_int 0) then [ch_minus] else [] in
  let whole :=
    if decide (0 = 0) then [] else bytes_of_string (decimal_string 0) in
  let len := (length sign + length whole + 3)%nat in
  (len <= 9)%nat
  ∧ utils_float_to_char val out
    = Some (Z.of_nat (20 - len),
            sign ++ whole ++ [ch_dot; 50 / 10 + ch_0; 50 mod 10 + ch_0]
            ++ replicate (20 - len) 0 ++ drop 20 out).
Proof.
  apply (utils_float_to_char_text (f32_lit (-5) 10) (replicate 21 7) 50 0);
    [vm_compute; reflexivity|simpl; lia].
Defined.

(** X15: the copy loop on any 20-byte scratch buffer: the non-null bytes are
    written to the front of [out] in their order, their number [j] is at
    most 20, and [out] keeps its length and its bytes from [j] on. *)
Theorem copy_loop_compacts (tmp out : list Z) :
  length tmp = 20%nat → (20 <= length out)%nat →
  ∃ (out' : list Z) (j : nat),
    copy_loop tmp out 0 0 = Some (out', Z.of_nat j)
    ∧ (j <= 20)%nat
    ∧ length out' = length out
    ∧ take j out' = filter (λ c, c ≠ 0) tmp
    ∧ drop j out' = drop j out.
Proof.
  intros Ht Ho. rewrite (copy_loop_spec tmp out Ht Ho).
  pose proof (length_filter (λ c, c ≠ 0) tmp) as Hj.
  fold (text_of tmp) in Hj |- *. rewrite Ht in Hj.
  eexists _, _. split; [done|]. split; [done|].
  split; [rewrite length_app, length_drop; lia|].
  split; [by rewrite take_app_length|by rewrite drop_app_length].
Qed.

Lemma copy_loop_compacts_witness :
  ∃ (out' : list Z) (j : nat),
    copy_loop ([0; 49; 0; 50] ++ replicate 16 0) (replicate 20 7) 0 0
    = Some (out', Z.of_nat j)
    ∧ (j <= 20)%nat
    ∧ length out' = length (replicate 20 7)
    ∧ take j out' = filter (λ c, c ≠ 0) ([0; 49; 0; 50] ++ replicate 16 0)
    ∧ drop j out' = drop j (replicate 20 7).
Proof.
  apply (copy_loop_compacts ([0; 49; 0; 50] ++ replicate 16 0)
           (replicate 20 7)); simpl; lia.
Defined.

(** ** Integer values *)

(** The integers from -327 to 327, converted to [float], one by one. *)
Lemma float_parts_integer_sweep :
  forallb
    (λ k, bool_decide (float_parts (f32_of_int k) = Some (0, Z.abs k))
          && bool_decide (f32_lt (f32_of_int k) (f32_of_int 0)
                          = bool_decide (k < 0)))
    (seqZ (-327) 655) = true.
Proof. vm_compute. reflexivity. Qed.

Lemma float_parts_integer k :
  -327 <= k <= 327 →
  float_parts (f32_of_int k) = Some (0, Z.abs k)
  ∧ f32_lt (f32_of_int k) (f32_of_int 0) = bool_decide (k < 0).
Proof.
  intros Hk.
  pose proof (proj1 (forallb_forall _ _) float_parts_integer_sweep k) as Hall.
  cbv beta in Hall.
  assert (Hin : In k (seqZ (-327) 655))
    by (apply list_elem_of_In, elem_of_seqZ; lia).
  apply Hall, andb_prop in Hin as [H1 H2].
  by apply bool_decide_eq_true_1 in H1, H2.
Qed.

(** X16: an integer from -327 to 327, given as a [float], is written as
    its decimal numeral followed by [.00], and 0 as [.00] alone; 328 is
    the first integer for which the conversion of [val * 100] to
    [int16_t] is undefined. *)
Theorem utils_float_to_char_integer k (out : list Z) :
  -327 <= k <= 327 → (20 <= length out)%nat →
  let text :=
    (if decide (k = 0) then [] else bytes_of_string (decimal_string k))
    ++ [ch_dot; ch_0; ch_0] in
  utils_float_to_char (f32_of_int k) out
  = Some (Z.of_nat (20 - length text),
          text ++ replicate (20 - length text) 0 ++ drop 20 out)
  ∧ utils_float_to_char (f32_of_int 328) out = None.
Proof.
  intros Hk Hout text. split.
  - destruct (float_parts_integer k Hk) as [Hp Hlt].
    rewrite (utils_float_to_char_spec _ out _ _ Hp Hout).
    assert (Htext : scratch_text (f32_lt (f32_of_int k) (f32_of_int 0)) 0
                      (Z.abs k) = text).
    { unfold scratch_text, units_text, text. rewrite Hlt.
      change (0 / 10 mod 10 + ch_0) with ch_0.
      change (0 mod 10 + ch_0) with ch_0.
      destruct k as [|p|p].
      - reflexivity.
      - change (Z.abs (Z.pos p)) with (Z.pos p).
        rewrite bool_decide_false by lia.
        rewrite (decide_False (P := Z.pos p = 0)) by lia.
        rewrite (decide_True (P := Z.pos p > 0)) by lia. reflexivity.
      - change (Z.abs (Z.neg p)) with (Z.pos p).
        rewrite bool_decide_true by lia.
        rewrite (decide_False (P := Z.neg p = 0)) by lia.
        rewrite (decide_True (P := Z.pos p > 0)) by lia.
        rewrite decimal_string_neg, bytes_of_string_cons. reflexivity. }
    by rewrite Htext.
  - apply utils_float_to_char_undefined. vm_compute. reflexivity.
Qed.

Lemma utils_float_to_char_integer_witness :
  let text :=
    (if decide (-42 = 0) then [] else bytes_of_string (decimal_string (-42)))
    ++ [ch_dot; ch_0; ch_0] in
  utils_float_to_char (f32_of_int (-42)) (replicate 20 7)
  = Some (Z.of_nat (20 - length text),
          text ++ replicate (20 - length text) 0 ++ drop 20 (replicate 20 7))
  ∧ utils_float_to_char (f32_of_int 328) (replicate 20 7) = None.
Proof.
  apply (utils_float_to_char_integer (-42) (replicate 20 7)); simpl; lia.
Defined.
